(** * rlc-bitmap: a run-length-coded bitmap store with a cache of decoded rows

    Shallow embedding of [rlc-bitmap.js] and proofs about its run-length
    codec, its row cache and its bit accessors.

    Conventions of the embedding:
    - JavaScript numbers that the program uses as integers are [Z]; array
      positions and loop counters, which never go negative, are [nat];
    - a [Uint8Array] (a decoded bit row) and a [Uint16Array] (an encoded
      row) are [list Z]; reading outside the array gives [None]
      (JavaScript's [undefined]) and writing outside it does nothing, which
      is what stdpp's list lookup and insert do;
    - [this.cache] (an object keyed by row number) and [this.store] (an
      array read and written by row number) are [gmap Z _]: an absent key
      reads as [undefined];
    - a method is a function from the object's state to a result and the
      new state; a thrown exception is [inl], and the state it leaves
      behind is kept, as a caller that catches the exception would see it. *)

From Stdlib Require Import ZArith QArith Lia Ascii.
From stdpp Require Import base tactics option numbers list gmap.

#[local] Set Warnings "-clear-no-such-hyp".
Local Open Scope Z_scope.

(** * The program *)

(** ** Typed arrays *)

(** [new Uint8Array(width)]: [width] zero bytes. *)
Definition BitArray (width : Z) : list Z := replicate (Z.to_nat width) 0.

(** [new Uint16Array(rlc)]: every number is stored modulo 2^16. *)
Definition RlcArray (rlc : list Z) : list Z := (λ c, c mod 65536) <$> rlc.

(** [row[x]] on a typed array: [undefined] outside [0 .. length-1]. *)
Definition typed_get (row : list Z) (x : Z) : option Z :=
  if decide (0 ≤ x) then row !! Z.to_nat x else None.

(** [row[x] = v] on a [Uint8Array]: the value is stored modulo 2^8, and a
    write outside the array is ignored. *)
Definition typed_set (row : list Z) (x v : Z) : list Z :=
  if decide (0 ≤ x) then <[Z.to_nat x := v mod 256]> row else row.

(** A bit value, and a dense row of bits. *)
Definition is_bit (b : Z) : Prop := b = 0 ∨ b = 1.

Definition bits (row : list Z) : Prop := Forall is_bit row.

Global Instance is_bit_dec b : Decision (is_bit b).
Proof. unfold is_bit. apply _. Defined.

(** ** The run-length codec *)

Definition rlcEvenRunValue : Z := 0.
Definition rlcOddRunValue : Z := 1.

(** [for (var j = 0; j < n; j++) bitrow[biti++] = v] *)
Fixpoint fill_run (bitrow : list Z) (biti : nat) (n : nat) (v : Z)
  : list Z * nat :=
  match n with
  | O => (bitrow, biti)
  | S n' => fill_run (<[biti := v]> bitrow) (S biti) n' v
  end.

(** The loop of [rlcDecode], which reads the counts two at a time.  When
    the last pair has no second count, [rlc[i + 1]] is [undefined], the
    comparison [j < undefined] is false and the second inner loop does not
    run. *)
Fixpoint rlcDecode_loop (rlc : list Z) (bitrow : list Z) (biti : nat)
  : list Z :=
  match rlc with
  | [] => bitrow
  | end0 :: rest =>
      let '(bitrow0, biti0) :=
        fill_run bitrow biti (Z.to_nat end0) rlcEvenRunValue in
      match rest with
      | [] => bitrow0
      | end1 :: rest' =>
          let '(bitrow1, biti1) :=
            fill_run bitrow0 biti0 (Z.to_nat end1) rlcOddRunValue in
          rlcDecode_loop rest' bitrow1 biti1
      end
  end.

Definition rlcDecode (width : Z) (rlc : list Z) : list Z :=
  rlcDecode_loop rlc (BitArray width) 0.

(** The loop of [findRunEnd]: [while (row[end] === val && end < limit) end++].
    [togo] is [limit - end], so that [end < limit] reads [togo <> 0]. *)
Fixpoint findRunEnd_loop (row : list Z) (val : option Z) (end_ : nat)
    (togo : nat) : nat :=
  match togo with
  | O => end_
  | S togo' =>
      if decide (row !! end_ = val)
      then findRunEnd_loop row val (S end_) togo'
      else end_
  end.

Definition findRunEnd (maxRunLength : Z) (row : list Z) (start : nat) : nat :=
  let val := row !! start in
  let end_ := (start + 1)%nat in
  let limit := (start + Z.to_nat maxRunLength)%nat in
  findRunEnd_loop row val end_ (limit - end_)%nat.

(** The loop of [rlcEncode].  Every round moves [rowi] forward, so
    [length bitrow] rounds are enough ([rlcEncode_loop_exit] below): [fuel]
    only makes the recursion structural. *)
Fixpoint rlcEncode_loop (maxRunLength : Z) (bitrow : list Z) (fuel : nat)
    (rowi : nat) (rlc : list Z) : nat * list Z :=
  match fuel with
  | O => (rowi, rlc)
  | S fuel' =>
      if decide (rowi < length bitrow)%nat then
        let end_ := findRunEnd maxRunLength bitrow rowi in
        let rlc1 := rlc ++ [Z.of_nat end_ - Z.of_nat rowi] in
        let rlc2 :=
          if decide (bitrow !! end_ = bitrow !! rowi) then rlc1 ++ [0]
          else rlc1 in
        rlcEncode_loop maxRunLength bitrow fuel' end_ rlc2
      else (rowi, rlc)
  end.

Definition rlcEncode (maxRunLength : Z) (bitrow : list Z) : list Z :=
  let rlc0 :=
    if decide (bitrow !! 0%nat = Some rlcEvenRunValue) then [] else [0] in
  let '(rowi, rlc) :=
    rlcEncode_loop maxRunLength bitrow (length bitrow) 0 rlc0 in
  let rlc' := if decide (Z.of_nat rowi mod 2 = 0) then rlc ++ [0] else rlc in
  RlcArray rlc'.

(** ** The bitmap object *)

(** The exceptions the program can raise: its two [Error]s, and the
    [TypeError] of the runtime when a property of [undefined] is read. *)
Inductive error : Type :=
  | WidthHeightRequired
  | RowOutOfBounds (n : Z)
  | TypeError.

(** A cache entry [{ rowId, modified, data }]. *)
Record entry : Type := Entry {
  rowId : Z;
  modified : bool;
  data : list Z
}.

(** The fields of a bitmap.  [cacheMaxItems] is [height * .05] when the
    option is not given, so it is a rational, not an integer; the embedding
    takes the product exactly. *)
Record bitmap : Type := Bitmap {
  width : Z;
  height : Z;
  cacheMaxItems : Q;
  maxRunLength : Z;
  store : gmap Z (list Z);
  cache : gmap Z entry;
  cacheRows : list Z
}.

Definition set_store (st : gmap Z (list Z)) (s : bitmap) : bitmap :=
  Bitmap (width s) (height s) (cacheMaxItems s) (maxRunLength s)
         st (cache s) (cacheRows s).
Definition set_cache (c : gmap Z entry) (s : bitmap) : bitmap :=
  Bitmap (width s) (height s) (cacheMaxItems s) (maxRunLength s)
         (store s) c (cacheRows s).
Definition set_cacheRows (rows : list Z) (s : bitmap) : bitmap :=
  Bitmap (width s) (height s) (cacheMaxItems s) (maxRunLength s)
         (store s) (cache s) rows.

(** What a method call gives: an exception or a value, and the state. *)
Definition result (A : Type) : Type := (error + A) * bitmap.

(** [freeCacheSpace].  [rows] is [this.cacheRows]; each round of the loop
    takes its first element off, so the recursion is on [rows].  On an
    empty queue [shift()] gives [undefined], [this.cache[undefined]] is
    [undefined] and reading [row.modified] throws. *)
Fixpoint freeCacheSpace_loop (nitems : Z) (rows : list Z) (s : bitmap)
  : result unit :=
  if Qlt_le_dec (cacheMaxItems s) (inject_Z (Z.of_nat (length rows) + nitems))
  then
    match rows with
    | [] => (inl TypeError, s)
    | rowId :: rest =>
        let s1 := set_cacheRows rest s in
        let row := cache s1 !! rowId in
        let s2 := set_cache (delete rowId (cache s1)) s1 in
        match row with
        | None => (inl TypeError, s2)
        | Some row =>
            let s3 :=
              if modified row
              then set_store (<[rowId := rlcEncode (maxRunLength s2) (data row)]>
                                (store s2)) s2
              else s2 in
            freeCacheSpace_loop nitems rest s3
        end
    end
  else (inr tt, s).

Definition freeCacheSpace (nitems : Z) (s : bitmap) : result unit :=
  freeCacheSpace_loop nitems (cacheRows s) s.

(** [getRow].  The value returned is the array held by the cache entry.
    When [this.store[n]] is [undefined], [rlcDecode] throws on
    [rlc.length], after [freeCacheSpace] has run. *)
Definition getRow (n : Z) (s : bitmap) : result (list Z) :=
  if decide (n < 0 ∨ n > height s) then (inl (RowOutOfBounds n), s)
  else
    match cache s !! n with
    | Some e => (inr (data e), s)
    | None =>
        match freeCacheSpace 1 s with
        | (inl err, s1) => (inl err, s1)
        | (inr _, s1) =>
            match store s1 !! n with
            | None => (inl TypeError, s1)
            | Some rlc =>
                let e := Entry n false (rlcDecode (width s1) rlc) in
                let s2 := set_cache (<[n := e]> (cache s1)) s1 in
                let s3 := set_cacheRows (cacheRows s2 ++ [n]) s2 in
                (inr (data e), s3)
            end
        end
    end.

(** [setRow].  The cache entry, when there is one, takes the given row.
    The program stores the caller's array itself, not a copy of it; here
    the row is a value, which is the same as long as the caller does not
    write to its array afterwards.  The calls of [get], [set] and
    [flushChanges] hand no array to [setRow]. *)
Definition setRow (row : list Z) (n : Z) (s : bitmap) : result unit :=
  if decide (n < 0 ∨ n > height s) then (inl (RowOutOfBounds n), s)
  else
    let s1 := set_store (<[n := rlcEncode (maxRunLength s) row]> (store s)) s in
    match cache s1 !! n with
    | Some e =>
        (inr tt, set_cache (<[n := Entry (rowId e) true row]> (cache s1)) s1)
    | None => (inr tt, s1)
    end.

(** [get]: [row[x]] is [undefined] when [x] is outside the row. *)
Definition get (x y : Z) (s : bitmap) : result (option Z) :=
  match getRow y s with
  | (inl err, s1) => (inl err, s1)
  | (inr row, s1) => (inr (typed_get row x), s1)
  end.

(** [set].  [row] is the very array that [this.cache[y].data] holds, so
    the write [row[x] = onOff] is a write to the cache entry. *)
Definition set (x y onOff : Z) (s : bitmap) : result unit :=
  match getRow y s with
  | (inl err, s1) => (inl err, s1)
  | (inr row, s1) =>
      let s2 :=
        match cache s1 !! y with
        | Some e =>
            set_cache (<[y := Entry (rowId e) (modified e)
                                    (typed_set row x onOff)]> (cache s1)) s1
        | None => s1
        end in
      let s3 :=
        match cache s2 !! y with
        | Some e =>
            set_cache (<[y := Entry (rowId e) true (data e)]> (cache s2)) s2
        | None => s2
        end in
      (inr tt, s3)
  end.

(** [flushChanges].  [todo] is [this.cacheRows.length - i].  The loop reads
    [this.cache[i]] at the loop counter [i]; when that is [undefined],
    reading [row.modified] throws. *)
Fixpoint flushChanges_loop (todo : nat) (i : Z) (s : bitmap) : result unit :=
  match todo with
  | O => (inr tt, s)
  | S todo' =>
      match cache s !! i with
      | None => (inl TypeError, s)
      | Some row =>
          let s1 :=
            if modified row
            then set_store (<[i := rlcEncode (maxRunLength s) (data row)]>
                              (store s)) s
            else s in
          flushChanges_loop todo' (i + 1) s1
      end
  end.

Definition flushChanges (s : bitmap) : result unit :=
  flushChanges_loop (length (cacheRows s)) 0 s.

(** The constructor's options.  A missing [width] or [height] fails the
    test [options.width > 0] as a non-positive one does; a missing
    [cacheMaxItems] is [None]. *)
Record options : Type := Options {
  opt_width : Z;
  opt_height : Z;
  opt_cacheMaxItems : option Z
}.

(** [options.cacheMaxItems || this.height * .05]: the option counts when it
    is given and is not 0.  The program computes the product in double
    precision; the embedding takes it exactly, as [height / 20].  The
    program only ever compares [cacheMaxItems] with integers, and the
    double compares with an integer as the exact value does: at a multiple
    of 20 the product rounds to the integer itself, and elsewhere it stays
    at least 1/20 away from every integer. *)
Definition cacheMaxItems_of (o : options) : Q :=
  let default := (inject_Z (opt_height o) * 0.05)%Q in
  match opt_cacheMaxItems o with
  | Some c => if decide (c = 0) then default else inject_Z c
  | None => default
  end.

(** [for (var i = 0; i < this.height; i++) this.setRow(bitrow, i)] *)
Fixpoint init_rows (bitrow : list Z) (todo : nat) (i : Z) (s : bitmap)
  : result unit :=
  match todo with
  | O => (inr tt, s)
  | S todo' =>
      match setRow bitrow i s with
      | (inl err, s1) => (inl err, s1)
      | (inr _, s1) => init_rows bitrow todo' (i + 1) s1
      end
  end.

(** The constructor.  The errors are those the program throws itself.  The
    runtime refuses an array it cannot make ([new Array(height)] with a
    height of [2 ^ 32] or more is a [RangeError]); that is not modelled,
    so for such sizes a result [inr s] says nothing about the program. *)
Definition RlcBitmap (o : options) : error + bitmap :=
  if decide (¬ opt_height o > 0 ∨ ¬ opt_width o > 0)
  then inl WidthHeightRequired
  else
    let s := Bitmap (opt_width o) (opt_height o) (cacheMaxItems_of o)
                    65000 ∅ ∅ [] in
    let bitrow := BitArray (width s) in
    match init_rows bitrow (Z.to_nat (height s)) 0 s with
    | (inl err, _) => inl err
    | (inr _, s1) => inr s1
    end.

(** ** Rendering *)

(** [this.store.length].  The array is made with [height] slots, and
    assigning an index at or past its length makes the length that index
    plus one; nothing ever shortens it. *)
Definition store_length (s : bitmap) : Z :=
  map_fold (λ n _ len, Z.max len (n + 1)) (height s) (store s).

(** [bitrow[j] && '@' || '.'] *)
Definition bit_char (b : Z) : ascii :=
  if decide (b = 0) then "."%char else "@"%char.

(** [for (var j = 0; j < bitrow.length; j++) str += ...]: the string is a
    list of characters, and [+=] adds at its end. *)
Fixpoint toString_row (bitrow : list Z) (str : list ascii) : list ascii :=
  match bitrow with
  | [] => str
  | b :: rest => toString_row rest (str ++ [bit_char b])
  end.

(** The loop of [toString]; [todo] is [this.store.length - i].  A cached
    row is taken from the cache (its array is an object, so
    [this.cache[i] && this.cache[i].data] is the array), another row is
    decoded from the store, and decoding [undefined] throws.  The bitmap is
    only read. *)
Fixpoint toString_loop (todo : nat) (i : Z) (s : bitmap) (str : list ascii)
  : error + list ascii :=
  match todo with
  | O => inr str
  | S todo' =>
      let bitrow :=
        match cache s !! i with
        | Some e => Some (data e)
        | None => rlcDecode (width s) <$> store s !! i
        end in
      match bitrow with
      | None => inl TypeError
      | Some bitrow =>
          toString_loop todo' (i + 1) s (toString_row bitrow str ++ ["010"%char])
      end
  end.

Definition toString (s : bitmap) : error + list ascii :=
  toString_loop (Z.to_nat (store_length s)) 0 s [].

(** ** Sequences of calls *)

Inductive call : Type :=
  | CallGet (x y : Z)
  | CallSet (x y onOff : Z)
  | CallFlush.

(** The state after a call; an exception leaves the state as it was when
    it was raised. *)
Definition run_call (s : bitmap) (c : call) : bitmap :=
  match c with
  | CallGet x y => (get x y s).2
  | CallSet x y onOff => (set x y onOff s).2
  | CallFlush => (flushChanges s).2
  end.

Definition run_calls (s : bitmap) (cs : list call) : bitmap :=
  foldl run_call s cs.

(** The row a call asks the cache for. *)
Definition call_row (c : call) : option Z :=
  match c with
  | CallGet _ y | CallSet _ y _ => Some y
  | CallFlush => None
  end.

(** A call that writes only bit values. *)
Definition bit_call (c : call) : bool :=
  match c with
  | CallSet _ _ onOff => bool_decide (is_bit onOff)
  | _ => true
  end.

(** * Notions used to state and prove the properties *)

(** ** The codec *)

(** What a sequence of run counts stands for, the first run having colour
    [v]: used to state what the two loops compute. *)
Fixpoint runs (v : Z) (rlc : list Z) : list Z :=
  match rlc with
  | [] => []
  | c :: rest => replicate (Z.to_nat c) v ++ runs (1 - v) rest
  end.

(** A count that fits: between 0 and [maxRunLength]. *)
Definition count_ok (maxRunLength : Z) (c : Z) : Prop := 0 ≤ c ≤ maxRunLength.

(** The colour of the run that comes after [n] counts. *)
Definition colour (n : nat) : Z := if Nat.even n then 0 else 1.

(** ** The bitmap *)

(** The row that the bitmap holds at [n]: the cached array when the row is
    cached, and otherwise what decoding the stored counts gives. *)
Definition row_of (s : bitmap) (n : Z) : option (list Z) :=
  match cache s !! n with
  | Some e => Some (data e)
  | None => rlcDecode (width s) <$> store s !! n
  end.

(** The bit that the bitmap holds at column [x] of row [y]. *)
Definition bit_of (s : bitmap) (x y : Z) : option Z :=
  row_of s y ≫= λ row, typed_get row x.

(** The invariant of the bitmap, whatever values [set] is given: the
    maximal run fits a [Uint16Array] element; every row below [height] is
    in the store; a cached row has [width] elements and, when it is not
    marked modified, is what the stored counts decode to; the queue lists
    the cached rows, each once; and a non-empty queue is no longer than
    [cacheMaxItems]. *)
Record wf (s : bitmap) : Prop := {
  wf_maxRunLength : 1 ≤ maxRunLength s ≤ 65535;
  wf_store : ∀ n, 0 ≤ n < height s → is_Some (store s !! n);
  wf_length : ∀ n e, cache s !! n = Some e →
    length (data e) = Z.to_nat (width s);
  wf_clean : ∀ n e, cache s !! n = Some e → modified e = false →
    rlcDecode (width s) <$> store s !! n = Some (data e);
  wf_nodup : NoDup (cacheRows s);
  wf_rows : ∀ n, n ∈ cacheRows s ↔ is_Some (cache s !! n);
  wf_size : cacheRows s = []
            ∨ (inject_Z (Z.of_nat (length (cacheRows s))) <= cacheMaxItems s)%Q
}.

(** Every cached row is a row of bits: this holds as long as [set] is
    given bit values. *)
Definition bit_rows (s : bitmap) : Prop :=
  ∀ n e, cache s !! n = Some e → bits (data e).

(** The fields that no method assigns after construction. *)
Definition same_shape (s s' : bitmap) : Prop :=
  width s' = width s ∧ height s' = height s
  ∧ cacheMaxItems s' = cacheMaxItems s ∧ maxRunLength s' = maxRunLength s.

(** ** The steps of the methods *)

(** One round of the loop of [freeCacheSpace]. *)
Definition evicted (s : bitmap) (rowId : Z) (rest : list Z) (row : entry)
  : bitmap :=
  let s2 := set_cache (delete rowId (cache s)) (set_cacheRows rest s) in
  if modified row
  then set_store (<[rowId := rlcEncode (maxRunLength s2) (data row)]> (store s2)) s2
  else s2.

(** The state after a miss has been served: a clean entry for row [n],
    queued last. *)
Definition fetched (s : bitmap) (n : Z) (rlc : list Z) : bitmap :=
  set_cacheRows (cacheRows s ++ [n])
    (set_cache (<[n := Entry n false (rlcDecode (width s) rlc)]> (cache s)) s).

(** The five ways a call of [getRow] can go. *)
Inductive getRow_case (n : Z) (s : bitmap) : result (list Z) → Prop :=
  | getRow_out :
      n < 0 ∨ n > height s →
      getRow_case n s (inl (RowOutOfBounds n), s)
  | getRow_hit e :
      0 ≤ n ≤ height s → cache s !! n = Some e →
      getRow_case n s (inr (data e), s)
  | getRow_no_room :
      0 ≤ n ≤ height s → cache s !! n = None →
      (freeCacheSpace 1 s).1 = inl TypeError →
      (cacheMaxItems s < 1)%Q →
      getRow_case n s (inl TypeError, (freeCacheSpace 1 s).2)
  | getRow_no_row :
      0 ≤ n ≤ height s → cache s !! n = None →
      (freeCacheSpace 1 s).1 = inr tt →
      store s !! n = None →
      getRow_case n s (inl TypeError, (freeCacheSpace 1 s).2)
  | getRow_miss rlc :
      0 ≤ n ≤ height s → cache s !! n = None →
      (freeCacheSpace 1 s).1 = inr tt →
      store s !! n = Some rlc →
      cache (freeCacheSpace 1 s).2 !! n = None →
      store (freeCacheSpace 1 s).2 !! n = Some rlc →
      (inject_Z (Z.of_nat (length (cacheRows (freeCacheSpace 1 s).2)) + 1)
       <= cacheMaxItems s)%Q →
      getRow_case n s
        (inr (rlcDecode (width s) rlc), fetched (freeCacheSpace 1 s).2 n rlc).

(** The state after [set] has written [onOff] at column [x] of the cached
    row [y]. *)
Definition written (s : bitmap) (x y onOff : Z) (e : entry) : bitmap :=
  set_cache (<[y := Entry (rowId e) true (typed_set (data e) x onOff)]>
               (cache s)) s.

(** One round of the loop of [flushChanges]. *)
Definition flushed (s : bitmap) (i : Z) (row : entry) : bitmap :=
  if modified row
  then set_store (<[i := rlcEncode (maxRunLength s) (data row)]> (store s)) s
  else s.

(** ** Bitmaps that a program can have *)

(** A bitmap as a program can have it: made by the constructor, then used
    through [get], [set] and [flushChanges]. *)
Definition reachable (s : bitmap) : Prop :=
  ∃ o s0 cs, RlcBitmap o = inr s0 ∧ run_calls s0 cs = s.

(** The same, when every [set] was given a bit value. *)
Definition bit_reachable (s : bitmap) : Prop :=
  ∃ o s0 cs,
    RlcBitmap o = inr s0 ∧ forallb bit_call cs = true ∧ run_calls s0 cs = s.

(** A call that assigns the bit at column [x] of row [y]. *)
Definition sets_bit (x y : Z) (c : call) : bool :=
  match c with
  | CallSet x' y' _ => bool_decide (x' = x ∧ y' = y)
  | _ => false
  end.

(** ** The queue of cached rows *)

(** What a call asking for row [y] does to a queue [rows] of at most [N]
    rows: nothing when the row is queued; otherwise the row is queued last,
    after the first row has left when the queue is full. *)
Definition fifo (N : Z) (rows : list Z) (y : Z) : list Z :=
  if decide (y ∈ rows) then rows
  else (if decide (Z.of_nat (length rows) < N) then rows else tail rows) ++ [y].

(** The same for a call: [flushChanges] asks for no row. *)
Definition fifo_call (N : Z) (rows : list Z) (c : call) : list Z :=
  match call_row c with
  | Some y => fifo N rows y
  | None => rows
  end.

(** A call that asks for a row below [height], or for no row. *)
Definition valid_row (height : Z) (c : call) : bool :=
  match call_row c with
  | Some y => bool_decide (0 ≤ y < height)
  | None => true
  end.

(** The rows in the order in which a sequence of calls first asks for
    them. *)
Definition note_row (rows : list Z) (c : call) : list Z :=
  match call_row c with
  | Some y => if decide (y ∈ rows) then rows else rows ++ [y]
  | None => rows
  end.

Definition first_access (cs : list call) : list Z := foldl note_row [] cs.

(** ** An example bitmap *)

(** [new RlcBitmap({ width: 8, height: 3, cacheMaxItems: c })]: every row
    is stored as one run of 8 zeros and an empty run of ones. *)
Definition blank_8x3 (c : Z) : bitmap :=
  Bitmap 8 3 (inject_Z c) 65000
         (<[2 := [8; 0]]> (<[1 := [8; 0]]> (<[0 := [8; 0]]> ∅))) ∅ [].

(** Proves [bits] of a list written out. *)
Ltac bits_of_list :=
  repeat (apply List.Forall_cons; [first [by left | by right]|]);
  apply List.Forall_nil.

(** ** Further notions *)

(** The sum of the counts of an encoded row. *)
Definition sum_counts (rlc : list Z) : Z := foldr Z.add 0 rlc.

(** The store holds rows [0] to [height - 1] and no other, and every
    cached row is one of them. *)
Definition store_rows (s : bitmap) : Prop :=
  (∀ n, is_Some (store s !! n) → 0 ≤ n < height s)
  ∧ (∀ n e, cache s !! n = Some e → is_Some (store s !! n)).

(** No cached row is marked modified. *)
Definition all_clean (s : bitmap) : Prop :=
  ∀ n e, cache s !! n = Some e → modified e = false.

(** A call that assigns no bit. *)
Definition is_read (c : call) : bool :=
  match c with
  | CallSet _ _ _ => false
  | _ => true
  end.

(** A plain array of bits, as a function of column and row, and what a
    call does to it: [set] at a column below [width] of a row below [height]
    assigns one bit, and no other call assigns anything. *)
Definition plain_call (width height : Z) (f : Z → Z → Z) (c : call)
  : Z → Z → Z :=
  match c with
  | CallSet x y onOff =>
      if decide (0 ≤ x < width ∧ 0 ≤ y < height)
      then λ x' y', if decide (x' = x ∧ y' = y) then onOff else f x' y'
      else f
  | _ => f
  end.

(** The plain array after a sequence of calls, from all zeros. *)
Definition plain_calls (width height : Z) (cs : list call) : Z → Z → Z :=
  foldl (plain_call width height) (λ _ _, 0) cs.

(** The characters of one row of the picture, without the line end. *)
Definition row_chars (bitrow : list Z) : list ascii := bit_char <$> bitrow.

(** * Proofs *)

(** ** Properties of the codec *)

Lemma colour_S n : colour (S n) = 1 - colour n.
Proof.
  unfold colour. rewrite Nat.even_succ, <- Nat.negb_even.
  by destruct (Nat.even n).
Qed.

Lemma runs_snoc rlc c v :
  runs v (rlc ++ [c])
  = runs v rlc
    ++ replicate (Z.to_nat c) (if Nat.even (length rlc) then v else 1 - v).
Proof.
  revert v. induction rlc as [|d rlc IH]; intros v.
  - simpl. by rewrite app_nil_r.
  - cbn [app runs length]. rewrite IH, <- app_assoc. do 2 f_equal.
    rewrite Nat.even_succ, <- Nat.negb_even.
    destruct (Nat.even (length rlc)); simpl; f_equal; lia.
Qed.

Lemma runs0_snoc rlc c :
  runs 0 (rlc ++ [c]) = runs 0 rlc ++ replicate (Z.to_nat c) (colour (length rlc)).
Proof. rewrite runs_snoc. unfold colour. by destruct (Nat.even _). Qed.

Lemma fill_run_length bitrow biti n v :
  length (fill_run bitrow biti n v).1 = length bitrow.
Proof.
  revert bitrow biti. induction n as [|n IH]; intros; simpl; [done|].
  by rewrite IH, length_insert.
Qed.

Lemma fill_run_bits bitrow biti n v :
  is_bit v → bits bitrow → bits (fill_run bitrow biti n v).1.
Proof.
  intros Hv. revert bitrow biti. induction n as [|n IH]; intros; simpl; [done|].
  apply IH. unfold bits in *.
  destruct (decide (biti < length bitrow)%nat).
  - by apply Forall_insert.
  - rewrite list_insert_ge; [done | lia].
Qed.

Lemma fill_run_inside pre rem n v :
  (n ≤ length rem)%nat →
  fill_run (pre ++ rem) (length pre) n v
  = (pre ++ replicate n v ++ drop n rem, (length pre + n)%nat).
Proof.
  revert pre rem. induction n as [|n IH]; intros pre rem Hle.
  - simpl. by rewrite Nat.add_0_r.
  - destruct rem as [|x rem]; [simpl in Hle; lia|].
    cbn [fill_run]. rewrite insert_app_r_alt by lia.
    rewrite Nat.sub_diag. cbn [insert list_insert].
    replace (pre ++ v :: rem) with ((pre ++ [v]) ++ rem)
      by (by rewrite <- app_assoc).
    replace (S (length pre)) with (length (pre ++ [v]))
      by (rewrite length_app; simpl; lia).
    rewrite IH by (simpl in Hle; lia).
    rewrite length_app, <- app_assoc. simpl. f_equal. lia.
Qed.

Lemma rlcDecode_loop_length rlc : ∀ bitrow biti,
  length (rlcDecode_loop rlc bitrow biti) = length bitrow.
Proof.
  induction rlc as [rlc IH] using (induction_ltof1 _ (@length Z)).
  unfold ltof in IH. intros bitrow biti.
  destruct rlc as [|end0 [|end1 rest]]; simpl; [done| |].
  - destruct (fill_run _ _ _ _) as [b0 i0] eqn:E0.
    change b0 with (b0, i0).1. rewrite <- E0. apply fill_run_length.
  - destruct (fill_run bitrow _ _ _) as [b0 i0] eqn:E0.
    destruct (fill_run b0 _ _ _) as [b1 i1] eqn:E1.
    rewrite IH by (simpl; lia).
    change b1 with (b1, i1).1. rewrite <- E1, fill_run_length.
    change b0 with (b0, i0).1. rewrite <- E0. apply fill_run_length.
Qed.

Lemma rlcDecode_loop_bits rlc : ∀ bitrow biti,
  bits bitrow → bits (rlcDecode_loop rlc bitrow biti).
Proof.
  induction rlc as [rlc IH] using (induction_ltof1 _ (@length Z)).
  unfold ltof in IH. intros bitrow biti Hb.
  destruct rlc as [|end0 [|end1 rest]]; simpl; [done| |].
  - destruct (fill_run _ _ _ _) as [b0 i0] eqn:E0.
    change b0 with (b0, i0).1. rewrite <- E0.
    apply fill_run_bits; [by left | done].
  - destruct (fill_run bitrow _ _ _) as [b0 i0] eqn:E0.
    destruct (fill_run b0 _ _ _) as [b1 i1] eqn:E1.
    apply IH; [simpl; lia|].
    change b1 with (b1, i1).1. rewrite <- E1.
    apply fill_run_bits; [by right|].
    change b0 with (b0, i0).1. rewrite <- E0.
    apply fill_run_bits; [by left | done].
Qed.

(** A decoded row always has [width] elements, each 0 or 1, whatever the
    counts are. *)
Lemma rlcDecode_length width rlc :
  length (rlcDecode width rlc) = Z.to_nat width.
Proof.
  unfold rlcDecode. rewrite rlcDecode_loop_length.
  apply length_replicate.
Qed.

Lemma rlcDecode_bits width rlc : bits (rlcDecode width rlc).
Proof.
  apply rlcDecode_loop_bits. unfold BitArray, bits.
  apply Forall_replicate. by left.
Qed.

Lemma rlcDecode_loop_inside rlc : ∀ pre rem,
  (length (runs 0 rlc) ≤ length rem)%nat →
  rlcDecode_loop rlc (pre ++ rem) (length pre)
  = pre ++ runs 0 rlc ++ drop (length (runs 0 rlc)) rem.
Proof.
  induction rlc as [rlc IH] using (induction_ltof1 _ (@length Z)).
  unfold ltof in IH. intros pre rem.
  destruct rlc as [|end0 [|end1 rest]]; cbn [rlcDecode_loop runs].
  - done.
  - rewrite app_nil_r, length_replicate. intros Hle.
    by rewrite fill_run_inside.
  - rewrite !length_app, !length_replicate. intros Hle.
    set (n0 := Z.to_nat end0) in *. set (n1 := Z.to_nat end1) in *.
    set (p0 := pre ++ replicate n0 rlcEvenRunValue).
    set (p1 := p0 ++ replicate n1 rlcOddRunValue).
    assert (Hp0 : length p0 = (length pre + n0)%nat)
      by (unfold p0; by rewrite length_app, length_replicate).
    assert (Hp1 : length p1 = (length p0 + n1)%nat)
      by (unfold p1; by rewrite length_app, length_replicate).
    rewrite fill_run_inside by lia.
    replace (pre ++ replicate n0 rlcEvenRunValue ++ drop n0 rem)
      with (p0 ++ drop n0 rem) by (unfold p0; by rewrite <- app_assoc).
    rewrite <- Hp0.
    rewrite fill_run_inside by (rewrite length_drop; lia).
    replace (p0 ++ replicate n1 rlcOddRunValue ++ drop n1 (drop n0 rem))
      with (p1 ++ drop n1 (drop n0 rem)) by (unfold p1; by rewrite <- app_assoc).
    rewrite <- Hp1.
    replace (1 - (1 - 0)) with 0 in * by lia.
    rewrite IH by (rewrite ?length_drop; simpl; lia).
    unfold p1, p0, rlcEvenRunValue, rlcOddRunValue.
    replace (1 - 0) with 1 by lia.
    rewrite !drop_drop, <- !app_assoc. do 4 f_equal; lia.
Qed.

(** When the counts add up to [width], decoding gives the runs they stand
    for. *)
Lemma rlcDecode_runs width rlc :
  length (runs 0 rlc) = Z.to_nat width → rlcDecode width rlc = runs 0 rlc.
Proof.
  intros Hlen. unfold rlcDecode.
  assert (Hrem : length (BitArray width) = Z.to_nat width)
    by apply length_replicate.
  pose proof (rlcDecode_loop_inside rlc [] (BitArray width)) as H.
  simpl in H. rewrite H by lia.
  rewrite drop_ge by lia. by rewrite app_nil_r.
Qed.

Lemma findRunEnd_loop_spec row val togo : ∀ end_,
  let r := findRunEnd_loop row val end_ togo in
  (end_ ≤ r ≤ end_ + togo)%nat
  ∧ (∀ i, (end_ ≤ i < r)%nat → row !! i = val)
  ∧ (r = (end_ + togo)%nat ∨ row !! r ≠ val).
Proof.
  induction togo as [|togo IH]; intros end_; simpl.
  - split; [lia|]. split; [intros; lia | left; lia].
  - destruct (decide (row !! end_ = val)) as [Heq|Hne].
    + destruct (IH (S end_)) as (Hr & Hrun & Hstop).
      split; [lia|]. split.
      * intros i Hi. destruct (decide (i = end_)) as [->|]; [done|].
        apply Hrun. lia.
      * destruct Hstop as [->|Hstop]; [left; lia | by right].
    + split; [lia|]. split; [intros; lia | by right].
Qed.

Section codec.
(** [this.maxRunLength]: the constructor sets it to 65000; all that the
    proofs use is that it is positive and fits a [Uint16Array] element. *)
Variable maxRunLength : Z.
Hypothesis maxRunLength_range : 1 ≤ maxRunLength ≤ 65535.

Lemma findRunEnd_spec row start :
  let e := findRunEnd maxRunLength row start in
  (start < e ≤ start + Z.to_nat maxRunLength)%nat
  ∧ (∀ i, (start ≤ i < e)%nat → row !! i = row !! start)
  ∧ (e = (start + Z.to_nat maxRunLength)%nat ∨ row !! e ≠ row !! start).
Proof.
  unfold findRunEnd.
  destruct (findRunEnd_loop_spec row (row !! start)
              (start + Z.to_nat maxRunLength - (start + 1)) (start + 1))
    as (Hr & Hrun & Hstop).
  split; [lia|]. split.
  - intros i Hi. destruct (decide (i = start)) as [->|]; [done|].
    apply Hrun. lia.
  - destruct Hstop as [->|Hstop]; [left; lia | by right].
Qed.

Lemma findRunEnd_inside row start :
  (start < length row)%nat →
  (findRunEnd maxRunLength row start ≤ length row)%nat.
Proof.
  intros Hlt. destruct (findRunEnd_spec row start) as (Hr & Hrun & _).
  set (e := findRunEnd maxRunLength row start) in *.
  destruct (decide (e ≤ length row)%nat) as [|Hgt]; [done|].
  assert (Hlast : row !! length row = row !! start) by (apply Hrun; lia).
  rewrite (lookup_ge_None_2 row (length row)) in Hlast by lia.
  apply lookup_lt_is_Some_2 in Hlt. rewrite <- Hlast in Hlt.
  by destruct Hlt.
Qed.

(** The fuel is never used up: the loop stops because [rowi] has reached
    the end of the row. *)
Lemma rlcEncode_loop_exit bitrow fuel : ∀ rowi rlc,
  (rowi ≤ length bitrow)%nat →
  (length bitrow - rowi ≤ fuel)%nat →
  (rlcEncode_loop maxRunLength bitrow fuel rowi rlc).1 = length bitrow.
Proof.
  induction fuel as [|fuel IH]; intros rowi rlc Hle Hfuel; simpl.
  - lia.
  - destruct (decide (rowi < length bitrow)%nat) as [Hlt|]; [|simpl; lia].
    pose proof (findRunEnd_inside bitrow rowi Hlt).
    destruct (findRunEnd_spec bitrow rowi) as (Hr & _).
    apply IH; lia.
Qed.

(** Every count the loop appends is between 0 and [maxRunLength]. *)
Lemma rlcEncode_loop_counts bitrow fuel : ∀ rowi rlc,
  Forall (count_ok maxRunLength) rlc →
  Forall (count_ok maxRunLength) (rlcEncode_loop maxRunLength bitrow fuel rowi rlc).2.
Proof.
  induction fuel as [|fuel IH]; intros rowi rlc Hrlc; simpl; [done|].
  destruct (decide (rowi < length bitrow)%nat); [|done].
  destruct (findRunEnd_spec bitrow rowi) as (Hr & _).
  assert (Forall (count_ok maxRunLength)
            (rlc ++ [Z.of_nat (findRunEnd maxRunLength bitrow rowi)
                     - Z.of_nat rowi])).
  { apply Forall_app. split; [done|].
    apply List.Forall_cons; [|done]. unfold count_ok. lia. }
  apply IH. case_decide; [|done].
  apply Forall_app. split; [done|].
  apply List.Forall_cons; [|done]. unfold count_ok. lia.
Qed.

Lemma RlcArray_id rlc : Forall (count_ok maxRunLength) rlc → RlcArray rlc = rlc.
Proof.
  unfold RlcArray. induction 1 as [|c rlc Hc _ IH]; [done|].
  rewrite fmap_cons, IH. f_equal.
  unfold count_ok in Hc. apply Z.mod_small. lia.
Qed.

Lemma rlcEncode_counts bitrow :
  Forall (count_ok maxRunLength) (rlcEncode maxRunLength bitrow).
Proof.
  unfold rlcEncode.
  destruct (rlcEncode_loop _ _ _ _ _) as [rowi rlc] eqn:E.
  assert (Hrlc : Forall (count_ok maxRunLength) rlc).
  { change rlc with (rowi, rlc).2. rewrite <- E.
    apply rlcEncode_loop_counts.
    case_decide; [done|].
    apply List.Forall_cons; [|done]. unfold count_ok. lia. }
  assert (Hrlc' : Forall (count_ok maxRunLength)
            (if decide (Z.of_nat rowi mod 2 = 0) then rlc ++ [0] else rlc)).
  { destruct (decide (Z.of_nat rowi mod 2 = 0)); [|done].
    apply Forall_app. split; [done|].
    apply List.Forall_cons; [|done]. unfold count_ok. lia. }
  by rewrite RlcArray_id.
Qed.

Lemma take_run (row : list Z) (rowi e : nat) (b : Z) :
  (rowi ≤ e ≤ length row)%nat →
  (∀ i, (rowi ≤ i < e)%nat → row !! i = Some b) →
  take e row = take rowi row ++ replicate (e - rowi) b.
Proof.
  intros Hle Hrun.
  rewrite <- (take_drop rowi (take e row)).
  rewrite take_take, Nat.min_l by lia. f_equal.
  symmetry. apply replicate_as_Forall. split.
  - rewrite length_drop, length_take. lia.
  - apply Forall_lookup. intros i x Hx.
    rewrite lookup_drop in Hx.
    apply lookup_take_Some in Hx as [Hx Hi].
    rewrite Hrun in Hx by lia. congruence.
Qed.

(** The loop keeps two facts: the counts emitted so far stand for the
    part of the row already scanned, and the next count to emit has the
    colour of the bit at [rowi]. *)
Lemma rlcEncode_loop_runs bitrow fuel : ∀ rowi rlc,
  bits bitrow →
  (rowi ≤ length bitrow)%nat →
  (length bitrow - rowi ≤ fuel)%nat →
  runs 0 rlc = take rowi bitrow →
  ((rowi < length bitrow)%nat →
     bitrow !! rowi = Some (colour (length rlc))) →
  runs 0 (rlcEncode_loop maxRunLength bitrow fuel rowi rlc).2 = bitrow.
Proof.
  induction fuel as [|fuel IH]; intros rowi rlc Hbits Hle Hfuel Hruns Hcol;
    simpl.
  - rewrite Hruns. apply take_ge. lia.
  - destruct (decide (rowi < length bitrow)%nat) as [Hlt|];
      [|simpl; rewrite Hruns; apply take_ge; lia].
    pose proof (findRunEnd_inside bitrow rowi Hlt) as Hin.
    destruct (findRunEnd_spec bitrow rowi) as (Hr & Hrun & Hstop).
    set (e := findRunEnd maxRunLength bitrow rowi) in *.
    specialize (Hcol Hlt).
    assert (Hruns1 : runs 0 (rlc ++ [Z.of_nat e - Z.of_nat rowi])
                     = take e bitrow).
    { rewrite runs0_snoc, Hruns.
      rewrite (take_run bitrow rowi e (colour (length rlc))); [|lia|].
      - do 2 f_equal. lia.
      - intros i Hi. by rewrite Hrun. }
    apply IH; [done|lia|lia| |].
    + case_decide; [|done].
      rewrite runs0_snoc, Hruns1. simpl. by rewrite app_nil_r.
    + intros Hlt'. case_decide as Hsame.
      * rewrite Hsame, Hcol. f_equal.
        rewrite !length_app. simpl.
        replace (length rlc + 1 + 1)%nat with (S (S (length rlc))) by lia.
        rewrite !colour_S. lia.
      * rewrite length_app. simpl.
        replace (length rlc + 1)%nat with (S (length rlc)) by lia.
        rewrite colour_S.
        destruct (lookup_lt_is_Some_2 bitrow e Hlt') as [b Hb].
        rewrite Hb in Hsame |- *. f_equal.
        assert (Hbit : is_bit b).
        { unfold bits in Hbits. rewrite Forall_lookup in Hbits. eauto. }
        assert (b ≠ colour (length rlc)) by congruence.
        unfold colour in *. destruct Hbit, (Nat.even (length rlc)); lia.
Qed.

Lemma rlcEncode_runs bitrow :
  bits bitrow → runs 0 (rlcEncode maxRunLength bitrow) = bitrow.
Proof.
  intros Hbits. pose proof (rlcEncode_counts bitrow) as Hcounts.
  unfold rlcEncode in *.
  set (rlc0 := if decide (bitrow !! 0%nat = Some rlcEvenRunValue)
               then [] else [0]) in *.
  assert (Hloop : runs 0 (rlcEncode_loop maxRunLength bitrow
                            (length bitrow) 0 rlc0).2 = bitrow).
  { apply rlcEncode_loop_runs; [done|lia|lia| |].
    - unfold rlc0. by case_decide.
    - intros Hlt. unfold rlc0, rlcEvenRunValue. case_decide as H0; [done|].
      destruct (lookup_lt_is_Some_2 bitrow 0%nat Hlt) as [b Hb].
      rewrite Hb in H0 |- *. f_equal.
      assert (Hbit : is_bit b).
      { unfold bits in Hbits. rewrite Forall_lookup in Hbits. eauto. }
      unfold colour. simpl. destruct Hbit; congruence. }
  assert (Hlen : Forall (count_ok maxRunLength) rlc0).
  { unfold rlc0. case_decide; [done|].
    apply List.Forall_cons; [|done]. unfold count_ok. lia. }
  pose proof (rlcEncode_loop_counts bitrow (length bitrow) 0%nat rlc0 Hlen)
    as Hc.
  destruct (rlcEncode_loop _ _ _ _ _) as [rowi rlc]. simpl in *.
  case_decide.
  - rewrite RlcArray_id.
    + rewrite runs0_snoc, Hloop. simpl. by rewrite app_nil_r.
    + apply Forall_app. split; [done|].
      apply List.Forall_cons; [|done]. unfold count_ok. lia.
  - by rewrite RlcArray_id.
Qed.

(** Decoding, at the row's own width, what encoding produced. *)
Lemma rlc_round_trip width bitrow :
  bits bitrow → length bitrow = Z.to_nat width →
  rlcDecode width (rlcEncode maxRunLength bitrow) = bitrow.
Proof.
  intros Hbits Hlen.
  rewrite rlcDecode_runs; rewrite rlcEncode_runs; done.
Qed.

(** A run that goes on for more than [maxRunLength] positions: the round
    emits [maxRunLength], then a zero-length run of the other colour, and
    the loop goes on with the rest of the run. *)
Lemma rlcEncode_loop_overlong bitrow fuel rowi rlc :
  (rowi + Z.to_nat maxRunLength < length bitrow)%nat →
  (∀ i, (rowi ≤ i ≤ rowi + Z.to_nat maxRunLength)%nat →
        bitrow !! i = bitrow !! rowi) →
  rlcEncode_loop maxRunLength bitrow (S fuel) rowi rlc
  = rlcEncode_loop maxRunLength bitrow fuel
      (rowi + Z.to_nat maxRunLength) (rlc ++ [maxRunLength; 0]).
Proof.
  intros Hlt Hrun. cbn [rlcEncode_loop]. rewrite decide_True by lia.
  destruct (findRunEnd_spec bitrow rowi) as (Hr & _ & Hstop).
  assert (He : findRunEnd maxRunLength bitrow rowi
               = (rowi + Z.to_nat maxRunLength)%nat).
  { destruct Hstop as [->|Hne]; [done|]. exfalso. apply Hne, Hrun. lia. }
  rewrite He. rewrite decide_True by (apply Hrun; lia).
  rewrite <- app_assoc. simpl. do 3 f_equal. lia.
Qed.
End codec.

(** ** The state invariant *)

Arguments rlcEncode : simpl never.
Arguments rlcDecode : simpl never.

Lemma same_shape_refl s : same_shape s s.
Proof. done. Qed.

Lemma same_shape_trans s1 s2 s3 :
  same_shape s1 s2 → same_shape s2 s3 → same_shape s1 s3.
Proof. unfold same_shape. intros (?&?&?&?) (?&?&?&?). repeat split; congruence. Qed.

Lemma freeCacheSpace_loop_cons nitems rowId rest s :
  freeCacheSpace_loop nitems (rowId :: rest) s
  = if Qlt_le_dec (cacheMaxItems s)
         (inject_Z (Z.of_nat (length (rowId :: rest)) + nitems))
    then match cache s !! rowId with
         | None => (inl TypeError,
                    set_cache (delete rowId (cache s)) (set_cacheRows rest s))
         | Some row => freeCacheSpace_loop nitems rest (evicted s rowId rest row)
         end
    else (inr tt, s).
Proof. reflexivity. Qed.

Lemma evicted_fields s rowId rest row :
  cacheRows (evicted s rowId rest row) = rest
  ∧ cache (evicted s rowId rest row) = delete rowId (cache s)
  ∧ same_shape s (evicted s rowId rest row).
Proof. unfold evicted. by destruct (modified row). Qed.

Lemma evicted_store s rowId rest row n :
  store (evicted s rowId rest row) !! n
  = if decide (n = rowId ∧ modified row = true)
    then Some (rlcEncode (maxRunLength s) (data row))
    else store s !! n.
Proof.
  unfold evicted. destruct (modified row); simpl.
  - case_decide as H.
    + destruct H as [-> _]. by rewrite lookup_insert_eq.
    + rewrite lookup_insert_ne; [done|]. intros ->. by apply H.
  - case_decide as H; [by destruct H|done].
Qed.

Lemma evicted_row_of s rowId rest row n :
  wf s → bit_rows s → cache s !! rowId = Some row →
  row_of (evicted s rowId rest row) n = row_of s n.
Proof.
  intros Hwf Hbit Hrow. unfold row_of.
  destruct (evicted_fields s rowId rest row) as (_ & -> & (-> & _)).
  rewrite evicted_store.
  destruct (decide (n = rowId)) as [->|Hne].
  - rewrite lookup_delete_eq, Hrow.
    pose proof (Hbit rowId row Hrow) as Hbits.
    pose proof (wf_length s Hwf rowId row Hrow) as Hlen.
    case_decide as Hmod.
    + simpl. f_equal.
      apply rlc_round_trip; [apply (wf_maxRunLength s Hwf)|done|done].
    + apply (wf_clean s Hwf rowId row Hrow).
      destruct (modified row); [|done]. by destruct Hmod.
  - rewrite lookup_delete_ne by done.
    case_decide as H; [by destruct H|done].
Qed.

Lemma evicted_wf s rowId rest row :
  wf s → cacheRows s = rowId :: rest → cache s !! rowId = Some row →
  wf (evicted s rowId rest row).
Proof.
  intros Hwf Hrows Hrow.
  destruct (evicted_fields s rowId rest row) as (Hr & Hc & (Hw & Hh & Hm & Hl)).
  pose proof (wf_nodup s Hwf) as Hnd. rewrite Hrows in Hnd.
  apply NoDup_cons in Hnd as [Hnotin Hnd].
  split.
  - rewrite Hl. apply (wf_maxRunLength s Hwf).
  - intros n Hn. rewrite evicted_store. case_decide; [done|].
    apply (wf_store s Hwf). by rewrite <- Hh.
  - intros n e. rewrite Hc, Hw. intros [_ He]%lookup_delete_Some.
    by apply (wf_length s Hwf n).
  - intros n e. rewrite Hc, Hw. intros [Hne He]%lookup_delete_Some Hclean.
    rewrite evicted_store. case_decide as H; [by destruct H|].
    by apply (wf_clean s Hwf n).
  - by rewrite Hr.
  - intros n. rewrite Hr, Hc. rewrite lookup_delete_is_Some.
    rewrite <- (wf_rows s Hwf n), Hrows, elem_of_cons. split.
    + intros Hin. split; [by intros ->|by right].
    + by intros [Hne [->|Hin]].
  - rewrite Hr, Hm. destruct rest as [|r rest']; [by left|right].
    destruct (wf_size s Hwf) as [Hnil|Hsz]; [by rewrite Hrows in Hnil|].
    rewrite Hrows in Hsz. eapply Qle_trans; [|exact Hsz].
    rewrite <- Zle_Qle. simpl length. lia.
Qed.

(** An invariant of the rounds is an invariant of [freeCacheSpace]. *)
Lemma freeCacheSpace_invariant (I : bitmap → Prop) nitems s :
  (∀ s rowId rest row,
     wf s → I s → cacheRows s = rowId :: rest → cache s !! rowId = Some row →
     I (evicted s rowId rest row)) →
  wf s → I s →
  wf (freeCacheSpace nitems s).2 ∧ I (freeCacheSpace nitems s).2.
Proof.
  intros Hstep. unfold freeCacheSpace.
  remember (cacheRows s) as rows eqn:Hrows. symmetry in Hrows.
  revert s Hrows. induction rows as [|rowId rest IH]; intros s Hrows Hwf HI.
  - simpl. by destruct (Qlt_le_dec _ _).
  - rewrite freeCacheSpace_loop_cons. destruct (Qlt_le_dec _ _); [|done].
    assert (Hin : is_Some (cache s !! rowId)).
    { apply (wf_rows s Hwf). rewrite Hrows. apply elem_of_cons. by left. }
    destruct Hin as [row Hrow]. rewrite Hrow.
    apply IH.
    + apply evicted_fields.
    + by apply evicted_wf.
    + by apply Hstep.
Qed.

Lemma freeCacheSpace_wf nitems s : wf s → wf (freeCacheSpace nitems s).2.
Proof.
  intros Hwf.
  by apply (freeCacheSpace_invariant (λ _, True) nitems s).
Qed.

Lemma freeCacheSpace_shape nitems s :
  wf s → same_shape s (freeCacheSpace nitems s).2.
Proof.
  intros Hwf.
  apply (freeCacheSpace_invariant (λ s', same_shape s s') nitems s);
    [|done|done].
  intros s' rowId rest row _ Hs _ _.
  eapply same_shape_trans; [exact Hs|apply evicted_fields].
Qed.

Lemma evicted_bit_rows s rowId rest row :
  bit_rows s → bit_rows (evicted s rowId rest row).
Proof.
  intros Hbit n e.
  destruct (evicted_fields s rowId rest row) as (_ & -> & _).
  intros [_ He]%lookup_delete_Some. by apply (Hbit n).
Qed.

Lemma freeCacheSpace_bit_rows nitems s :
  wf s → bit_rows s → bit_rows (freeCacheSpace nitems s).2.
Proof.
  intros Hwf Hbit.
  apply (freeCacheSpace_invariant bit_rows nitems s); [|done|done].
  intros s' rowId rest row _ Hs _ _. by apply evicted_bit_rows.
Qed.

Lemma freeCacheSpace_row_of nitems s n :
  wf s → bit_rows s → row_of (freeCacheSpace nitems s).2 n = row_of s n.
Proof.
  intros Hwf Hbit.
  apply (freeCacheSpace_invariant
           (λ s', bit_rows s' ∧ row_of s' n = row_of s n) nitems s);
    [|done|done].
  intros s' rowId rest row Hwf' [Hbit' Hs] _ Hrow.
  split; [by apply evicted_bit_rows|]. by rewrite evicted_row_of.
Qed.

(** [freeCacheSpace] only removes entries: a row that is not cached before
    is not cached after, and a row still cached has kept its entry. *)
Lemma freeCacheSpace_cache nitems s n :
  wf s →
  cache (freeCacheSpace nitems s).2 !! n = None
  ∨ cache (freeCacheSpace nitems s).2 !! n = cache s !! n.
Proof.
  intros Hwf.
  apply (freeCacheSpace_invariant
           (λ s', cache s' !! n = None ∨ cache s' !! n = cache s !! n)
           nitems s); [|done|by right].
  intros s' rowId rest row _ Hs _ _.
  destruct (evicted_fields s' rowId rest row) as (_ & -> & _).
  destruct (decide (n = rowId)) as [->|Hne].
  - left. apply lookup_delete_eq.
  - by rewrite lookup_delete_ne.
Qed.

(** The store changes only at rows that were cached. *)
Lemma freeCacheSpace_store nitems s n :
  wf s → cache s !! n = None →
  store (freeCacheSpace nitems s).2 !! n = store s !! n.
Proof.
  intros Hwf Hn.
  apply (freeCacheSpace_invariant
           (λ s', cache s' !! n = None ∧ store s' !! n = store s !! n)
           nitems s); [|done|done].
  intros s' rowId rest row _ [Hc Hs] _ Hrow.
  destruct (evicted_fields s' rowId rest row) as (_ & -> & _).
  split.
  - destruct (decide (n = rowId)) as [->|Hne];
      [apply lookup_delete_eq | by rewrite lookup_delete_ne].
  - rewrite evicted_store. case_decide as H; [|done].
    destruct H as [-> _]. congruence.
Qed.

(** When [freeCacheSpace] returns, there is room for [nitems] more rows;
    it returns whenever [nitems] rows fit in an empty cache. *)
Lemma freeCacheSpace_result nitems s :
  wf s →
  ((freeCacheSpace nitems s).1 = inr tt
   ∧ (inject_Z (Z.of_nat (length (cacheRows (freeCacheSpace nitems s).2))
                + nitems) <= cacheMaxItems s)%Q)
  ∨ ((freeCacheSpace nitems s).1 = inl TypeError
     ∧ (cacheMaxItems s < inject_Z nitems)%Q)%Q.
Proof.
  unfold freeCacheSpace.
  remember (cacheRows s) as rows eqn:Hrows. symmetry in Hrows.
  revert s Hrows. induction rows as [|rowId rest IH]; intros s Hrows Hwf.
  - simpl. destruct (Qlt_le_dec _ _) as [Hlt|Hle]; simpl.
    + by right.
    + left. by rewrite Hrows.
  - rewrite freeCacheSpace_loop_cons.
    destruct (Qlt_le_dec _ _) as [Hlt|Hle].
    + assert (Hin : is_Some (cache s !! rowId)).
      { apply (wf_rows s Hwf). rewrite Hrows. apply elem_of_cons. by left. }
      destruct Hin as [row Hrow]. rewrite Hrow.
      destruct (evicted_fields s rowId rest row) as (Hr & _ & (_ & _ & Hm & _)).
      rewrite <- Hm. apply IH; [done|by apply evicted_wf].
    + left. simpl. by rewrite Hrows.
Qed.

(** No round is run when the rows already fit. *)
Lemma freeCacheSpace_fits nitems s :
  (inject_Z (Z.of_nat (length (cacheRows s)) + nitems) <= cacheMaxItems s)%Q →
  freeCacheSpace nitems s = (inr tt, s).
Proof.
  intros Hle. unfold freeCacheSpace.
  destruct (cacheRows s) as [|rowId rest] eqn:Hrows.
  - simpl in *. destruct (Qlt_le_dec _ _) as [Hlt|]; [|done].
    exfalso. apply (Qlt_not_le _ _ Hlt). exact Hle.
  - rewrite freeCacheSpace_loop_cons.
    destruct (Qlt_le_dec _ _) as [Hlt|]; [|done].
    exfalso. apply (Qlt_not_le _ _ Hlt). exact Hle.
Qed.

(** A full cache loses exactly its oldest row. *)
Lemma freeCacheSpace_full s rowId rest row N :
  cacheMaxItems s = inject_Z N →
  cacheRows s = rowId :: rest → Z.of_nat (length (rowId :: rest)) = N →
  cache s !! rowId = Some row →
  freeCacheSpace 1 s = (inr tt, evicted s rowId rest row).
Proof.
  intros Hmax Hrows Hlen Hrow. unfold freeCacheSpace.
  rewrite Hrows, freeCacheSpace_loop_cons, Hrow.
  destruct (Qlt_le_dec _ _) as [Hlt|Hle].
  - destruct (evicted_fields s rowId rest row) as (Hr & _ & (_ & _ & Hm & _)).
    pose proof (freeCacheSpace_fits 1 (evicted s rowId rest row)) as Hfits.
    unfold freeCacheSpace in Hfits. rewrite Hr in Hfits. apply Hfits.
    rewrite Hm, Hmax, <- Zle_Qle. simpl length in Hlen. lia.
  - exfalso. rewrite Hmax, <- Zle_Qle in Hle. lia.
Qed.

(** *** [getRow] *)

Lemma fetched_wf s n rlc :
  wf s → cache s !! n = None → store s !! n = Some rlc →
  (inject_Z (Z.of_nat (length (cacheRows s)) + 1) <= cacheMaxItems s)%Q →
  wf (fetched s n rlc).
Proof.
  intros Hwf Hmiss Hrlc Hroom.
  assert (Hnotin : n ∉ cacheRows s).
  { rewrite (wf_rows s Hwf), Hmiss. by intros [? ?]. }
  split; simpl.
  - apply (wf_maxRunLength s Hwf).
  - apply (wf_store s Hwf).
  - intros k e [[<- <-]|[Hne He]]%lookup_insert_Some; simpl.
    + apply rlcDecode_length.
    + by apply (wf_length s Hwf k).
  - intros k e [[<- <-]|[Hne He]]%lookup_insert_Some Hclean; simpl.
    + by rewrite Hrlc.
    + by apply (wf_clean s Hwf k).
  - apply NoDup_app. split; [apply (wf_nodup s Hwf)|]. split.
    + intros k Hk ->%list_elem_of_singleton. done.
    + apply NoDup_singleton.
  - intros k. rewrite elem_of_app, list_elem_of_singleton.
    rewrite lookup_insert_is_Some, (wf_rows s Hwf k).
    destruct (decide (n = k)) as [->|]; naive_solver.
  - right. rewrite length_app. simpl length.
    replace (Z.of_nat (length (cacheRows s) + 1))
      with (Z.of_nat (length (cacheRows s)) + 1) by lia.
    done.
Qed.

Lemma fetched_bit_rows s n rlc : bit_rows s → bit_rows (fetched s n rlc).
Proof.
  intros Hbit k e. simpl.
  intros [[<- <-]|[Hne He]]%lookup_insert_Some; simpl.
  - apply rlcDecode_bits.
  - by apply (Hbit k).
Qed.

Lemma fetched_row_of s n rlc k :
  cache s !! n = None → store s !! n = Some rlc →
  row_of (fetched s n rlc) k = row_of s k.
Proof.
  intros Hmiss Hrlc. unfold row_of. simpl.
  destruct (decide (k = n)) as [->|Hne].
  - by rewrite lookup_insert_eq, Hmiss, Hrlc.
  - by rewrite lookup_insert_ne.
Qed.

Lemma getRow_cases n s : wf s → getRow_case n s (getRow n s).
Proof.
  intros Hwf. unfold getRow.
  case_decide as Hb; [by constructor|].
  assert (Hn : 0 ≤ n ≤ height s) by lia.
  destruct (cache s !! n) as [e|] eqn:Hc; [by constructor|].
  pose proof (freeCacheSpace_store 1 s n Hwf Hc) as Hst.
  pose proof (freeCacheSpace_shape 1 s Hwf) as (Hw & _).
  assert (Hc1 : cache (freeCacheSpace 1 s).2 !! n = None).
  { destruct (freeCacheSpace_cache 1 s n Hwf); congruence. }
  pose proof (getRow_miss n s) as Kmiss.
  pose proof (getRow_no_row n s) as Krow.
  pose proof (getRow_no_room n s) as Kroom.
  destruct (freeCacheSpace_result 1 s Hwf) as [[Hr Hroom]|[Hr Hlt]];
    destruct (freeCacheSpace 1 s) as [r s1]; simpl in *; subst r.
  - destruct (store s1 !! n) as [rlc|] eqn:Hs1.
    + replace (set_cacheRows _ _) with (fetched s1 n rlc)
        by (unfold fetched; by rewrite Hw).
      rewrite Hw. by apply Kmiss.
    + by apply Krow.
  - by apply Kroom.
Qed.

Lemma getRow_wf n s : wf s → wf (getRow n s).2.
Proof.
  intros Hwf. destruct (getRow_cases n s Hwf); simpl; try done;
    try by apply freeCacheSpace_wf.
  pose proof (freeCacheSpace_shape 1 s Hwf) as (_ & _ & Hm & _).
  apply fetched_wf; [by apply freeCacheSpace_wf|done|done|by rewrite Hm].
Qed.

Lemma fetched_shape s n rlc : same_shape s (fetched s n rlc).
Proof. done. Qed.

Lemma getRow_shape n s : wf s → same_shape s (getRow n s).2.
Proof.
  intros Hwf. pose proof (freeCacheSpace_shape 1 s Hwf) as Hsh.
  destruct (getRow_cases n s Hwf); simpl; done.
Qed.

Lemma getRow_bit_rows n s : wf s → bit_rows s → bit_rows (getRow n s).2.
Proof.
  intros Hwf Hbit. pose proof (freeCacheSpace_bit_rows 1 s Hwf Hbit).
  destruct (getRow_cases n s Hwf); simpl; try done.
  by apply fetched_bit_rows.
Qed.

Lemma getRow_row_of n s k :
  wf s → bit_rows s → row_of (getRow n s).2 k = row_of s k.
Proof.
  intros Hwf Hbit. destruct (getRow_cases n s Hwf); simpl; try done;
    try by apply freeCacheSpace_row_of.
  rewrite fetched_row_of by done. by apply freeCacheSpace_row_of.
Qed.

(** A row that [getRow] returns is the array of the row's cache entry. *)
Lemma getRow_inr n s row s' :
  wf s → getRow n s = (inr row, s') →
  0 ≤ n ≤ height s ∧ ∃ e, cache s' !! n = Some e ∧ data e = row.
Proof.
  intros Hwf Hget. destruct (getRow_cases n s Hwf) as [| e | | | rlc];
    try discriminate; simplify_eq.
  - eauto.
  - pose proof (freeCacheSpace_shape 1 s Hwf) as (Hw & _).
    split; [done|]. eexists. split; [apply lookup_insert_eq|].
    simpl. by rewrite Hw.
Qed.

(** [getRow] returns a row for every row number below [height] as soon as
    the cache can hold one row. *)
Lemma getRow_ok n s :
  wf s → 0 ≤ n < height s → (1 <= cacheMaxItems s)%Q →
  ∃ row, (getRow n s).1 = inr row.
Proof.
  intros Hwf Hn Hmax. destruct (getRow_cases n s Hwf) as [| e | | | rlc];
    simpl; eauto.
  - lia.
  - exfalso. by eapply Qlt_not_le.
  - destruct (wf_store s Hwf n Hn) as [rlc Hrlc]. congruence.
Qed.

(** When [getRow] has returned a row once, the cache holds at least one
    row, so [cacheMaxItems] is at least 1. *)
Lemma cached_room s n e :
  wf s → cache s !! n = Some e → (1 <= cacheMaxItems s)%Q.
Proof.
  intros Hwf He.
  assert (Hin : n ∈ cacheRows s) by (apply (wf_rows s Hwf); eauto).
  destruct (wf_size s Hwf) as [Hnil|Hsz].
  - rewrite Hnil in Hin. by apply not_elem_of_nil in Hin.
  - eapply Qle_trans; [|exact Hsz]. change 1%Q with (inject_Z 1).
    rewrite <- Zle_Qle. destruct (cacheRows s); [|simpl length; lia].
    by apply not_elem_of_nil in Hin.
Qed.

(** *** [set] *)

Lemma typed_set_length row x v : length (typed_set row x v) = length row.
Proof. unfold typed_set. case_decide; [apply length_insert|done]. Qed.

Lemma typed_set_bits row x v : is_bit v → bits row → bits (typed_set row x v).
Proof.
  intros Hv Hrow. unfold typed_set. case_decide; [|done].
  apply Forall_insert; [done|].
  replace (v mod 256) with v; [done|]. destruct Hv; by subst.
Qed.

Lemma typed_get_set row x v :
  0 ≤ x → (Z.to_nat x < length row)%nat → is_bit v →
  typed_get (typed_set row x v) x = Some v.
Proof.
  intros Hx Hlt Hv. unfold typed_get, typed_set.
  rewrite !decide_True by done.
  rewrite list_lookup_insert_eq by done. f_equal. destruct Hv; by subst.
Qed.

Lemma typed_get_set_ne row x x' v :
  x ≠ x' → typed_get (typed_set row x' v) x = typed_get row x.
Proof.
  intros Hne. unfold typed_get, typed_set.
  case_decide; [|done]. case_decide; [|done].
  apply list_lookup_insert_ne. lia.
Qed.

Lemma set_unfold x y onOff s :
  set x y onOff s
  = match getRow y s with
    | (inl err, s1) => (inl err, s1)
    | (inr row, s1) =>
        match cache s1 !! y with
        | Some e =>
            (inr tt,
             set_cache (<[y := Entry (rowId e) true (typed_set row x onOff)]>
                          (cache s1)) s1)
        | None => (inr tt, s1)
        end
    end.
Proof.
  unfold set. destruct (getRow y s) as [[err|row] s1]; [done|].
  destruct (cache s1 !! y) as [e|] eqn:He; simpl; [|by rewrite He].
  rewrite lookup_insert_eq. simpl. unfold set_cache. simpl.
  by rewrite insert_insert_eq.
Qed.

(** The two ways a call of [set] can go. *)
Lemma set_cases x y onOff s :
  wf s →
  (∃ err, getRow y s = (inl err, (getRow y s).2)
          ∧ set x y onOff s = (inl err, (getRow y s).2))
  ∨ (∃ e, 0 ≤ y ≤ height s
          ∧ getRow y s = (inr (data e), (getRow y s).2)
          ∧ cache (getRow y s).2 !! y = Some e
          ∧ set x y onOff s = (inr tt, written (getRow y s).2 x y onOff e)).
Proof.
  intros Hwf. rewrite set_unfold.
  destruct (getRow y s) as [[err|row] s1] eqn:Hget; simpl.
  - left. eauto.
  - right. destruct (getRow_inr y s row s1 Hwf Hget) as (Hy & e & He & <-).
    exists e. by rewrite He.
Qed.

Lemma written_wf s x y onOff e :
  wf s → cache s !! y = Some e → wf (written s x y onOff e).
Proof.
  intros Hwf He.
  pose proof (wf_length s Hwf y e He) as Hlen.
  split; simpl.
  - apply (wf_maxRunLength s Hwf).
  - apply (wf_store s Hwf).
  - intros k e' [[<- <-]|[Hne He']]%lookup_insert_Some; simpl.
    + by rewrite typed_set_length.
    + by apply (wf_length s Hwf k).
  - intros k e' [[<- <-]|[Hne He']]%lookup_insert_Some Hclean; simpl in *.
    + done.
    + by apply (wf_clean s Hwf k).
  - apply (wf_nodup s Hwf).
  - intros k. rewrite lookup_insert_is_Some, (wf_rows s Hwf k).
    destruct (decide (y = k)) as [<-|]; [|naive_solver].
    split; [by left|]. intros _. eauto.
  - apply (wf_size s Hwf).
Qed.

Lemma written_bit_rows s x y onOff e :
  bit_rows s → cache s !! y = Some e → is_bit onOff →
  bit_rows (written s x y onOff e).
Proof.
  intros Hbit He Hv k e'. simpl.
  intros [[<- <-]|[Hne He']]%lookup_insert_Some; simpl.
  - apply typed_set_bits; [done|]. by apply (Hbit y).
  - by apply (Hbit k).
Qed.

Lemma written_row_of s x y onOff e k :
  row_of (written s x y onOff e) k
  = if decide (k = y) then Some (typed_set (data e) x onOff) else row_of s k.
Proof.
  unfold row_of. simpl. case_decide as Hk.
  - subst k. by rewrite lookup_insert_eq.
  - by rewrite lookup_insert_ne.
Qed.

Lemma set_wf x y onOff s : wf s → wf (set x y onOff s).2.
Proof.
  intros Hwf. pose proof (getRow_wf y s Hwf) as Hwf1.
  destruct (set_cases x y onOff s Hwf) as [(err & _ & ->)|(e & _ & _ & He & ->)];
    simpl; [done|]. by apply written_wf.
Qed.

Lemma set_bit_rows x y onOff s :
  wf s → bit_rows s → is_bit onOff → bit_rows (set x y onOff s).2.
Proof.
  intros Hwf Hbit Hv. pose proof (getRow_bit_rows y s Hwf Hbit) as Hbit1.
  destruct (set_cases x y onOff s Hwf) as [(err & _ & ->)|(e & _ & _ & He & ->)];
    simpl; [done|]. by apply written_bit_rows.
Qed.

Lemma set_shape x y onOff s : wf s → same_shape s (set x y onOff s).2.
Proof.
  intros Hwf. pose proof (getRow_shape y s Hwf) as Hsh.
  by destruct (set_cases x y onOff s Hwf)
    as [(err & _ & ->)|(e & _ & _ & He & ->)].
Qed.

(** *** [get] *)

Lemma get_state x y s : (get x y s).2 = (getRow y s).2.
Proof. unfold get. by destruct (getRow y s) as [[err|row] s1]. Qed.

(** [get] returns the bit that the bitmap holds. *)
Lemma get_inr x y s v :
  wf s → bit_rows s → (get x y s).1 = inr v → v = bit_of s x y.
Proof.
  intros Hwf Hbit. unfold get, bit_of.
  rewrite <- (getRow_row_of y s y Hwf Hbit).
  destruct (getRow y s) as [[err|row] s1] eqn:Hget; simpl; [done|].
  intros [= <-].
  destruct (getRow_inr y s row s1 Hwf Hget) as (_ & e & He & <-).
  unfold row_of. by rewrite He.
Qed.

(** *** [flushChanges] *)

Lemma flushed_fields s i row :
  cache (flushed s i row) = cache s
  ∧ cacheRows (flushed s i row) = cacheRows s
  ∧ same_shape s (flushed s i row).
Proof. unfold flushed. by destruct (modified row). Qed.

Lemma flushed_store s i row n :
  store (flushed s i row) !! n
  = if decide (n = i ∧ modified row = true)
    then Some (rlcEncode (maxRunLength s) (data row))
    else store s !! n.
Proof.
  unfold flushed. destruct (modified row); simpl.
  - case_decide as H.
    + destruct H as [-> _]. by rewrite lookup_insert_eq.
    + rewrite lookup_insert_ne; [done|]. intros ->. by apply H.
  - case_decide as H; [by destruct H|done].
Qed.

(** An invariant of the rounds is an invariant of [flushChanges]. *)
Lemma flushChanges_invariant (I : bitmap → Prop) s :
  (∀ s i row, I s → cache s !! i = Some row → I (flushed s i row)) →
  I s → I (flushChanges s).2.
Proof.
  intros Hstep. unfold flushChanges.
  generalize (length (cacheRows s)) as todo. generalize 0 as i.
  intros i todo. revert i s.
  induction todo as [|todo IH]; intros i s HI; simpl; [done|].
  destruct (cache s !! i) as [row|] eqn:Hrow; [|done].
  apply IH. by apply (Hstep s i row).
Qed.

Lemma flushed_wf s i row : wf s → cache s !! i = Some row → wf (flushed s i row).
Proof.
  intros Hwf Hrow.
  destruct (flushed_fields s i row) as (Hc & Hr & (Hw & Hh & Hm & Hl)).
  split.
  - rewrite Hl. apply (wf_maxRunLength s Hwf).
  - intros n Hn. rewrite flushed_store. case_decide; [done|].
    apply (wf_store s Hwf). by rewrite <- Hh.
  - rewrite Hc, Hw. apply (wf_length s Hwf).
  - intros n e. rewrite Hc, Hw. intros He Hclean.
    rewrite flushed_store. case_decide as H; [|by apply (wf_clean s Hwf n)].
    destruct H as [-> Hmod]. congruence.
  - rewrite Hr. apply (wf_nodup s Hwf).
  - intros n. rewrite Hr, Hc. apply (wf_rows s Hwf).
  - rewrite Hr, Hm. apply (wf_size s Hwf).
Qed.

Lemma flushed_row_of s i row n :
  wf s → cache s !! i = Some row → row_of (flushed s i row) n = row_of s n.
Proof.
  intros Hwf Hrow. unfold row_of.
  destruct (flushed_fields s i row) as (-> & _ & (-> & _)).
  destruct (cache s !! n) as [e|] eqn:He; [done|].
  rewrite flushed_store. case_decide as H; [|done].
  destruct H as [-> _]. congruence.
Qed.

Lemma flushChanges_wf s : wf s → wf (flushChanges s).2.
Proof.
  apply (flushChanges_invariant wf). intros. by apply flushed_wf.
Qed.

Lemma flushChanges_cache s :
  cache (flushChanges s).2 = cache s
  ∧ cacheRows (flushChanges s).2 = cacheRows s
  ∧ same_shape s (flushChanges s).2.
Proof.
  apply (flushChanges_invariant
           (λ s', cache s' = cache s ∧ cacheRows s' = cacheRows s
                  ∧ same_shape s s')); [|done].
  intros s' i row (Hc & Hr & Hsh) _.
  destruct (flushed_fields s' i row) as (-> & -> & Hsh').
  split; [done|]. split; [done|]. by eapply same_shape_trans.
Qed.

Lemma flushChanges_row_of s n :
  wf s → row_of (flushChanges s).2 n = row_of s n.
Proof.
  intros Hwf.
  apply (flushChanges_invariant (λ s', wf s' ∧ row_of s' n = row_of s n));
    [|done].
  intros s' i row [Hwf' Hrow] Hi. split; [by apply flushed_wf|].
  by rewrite flushed_row_of.
Qed.

(** *** The constructor *)

Lemma init_rows_spec bitrow todo : ∀ i s,
  cache s = ∅ → 0 ≤ i → i + Z.of_nat todo ≤ height s →
  ∃ st, init_rows bitrow todo i s = (inr tt, set_store st s)
        ∧ ∀ n, (is_Some (store s !! n) ∨ i ≤ n < i + Z.of_nat todo)
               → is_Some (st !! n).
Proof.
  induction todo as [|todo IH]; intros i s Hc Hi Hh; simpl.
  - exists (store s). split; [by destruct s|]. intros n [?|?]; [done|lia].
  - unfold setRow. rewrite decide_False by lia. simpl. rewrite Hc, lookup_empty.
    set (s1 := set_store _ s).
    destruct (IH (i + 1) s1) as (st & -> & Hst); [done|lia|simpl; lia|].
    exists st. split; [done|]. intros n Hn. apply Hst. simpl.
    destruct (decide (n = i)) as [->|Hne].
    + left. rewrite lookup_insert_eq. eauto.
    + rewrite lookup_insert_ne by done. destruct Hn; [by left|right; lia].
Qed.

Lemma RlcBitmap_inr o s :
  RlcBitmap o = inr s →
  opt_width o > 0 ∧ opt_height o > 0
  ∧ width s = opt_width o ∧ height s = opt_height o
  ∧ cacheMaxItems s = cacheMaxItems_of o ∧ maxRunLength s = 65000
  ∧ cache s = ∅ ∧ cacheRows s = []
  ∧ ∀ n, 0 ≤ n < height s → is_Some (store s !! n).
Proof.
  unfold RlcBitmap. case_decide as Hpos; [done|].
  set (s0 := Bitmap _ _ _ _ _ _ _).
  destruct (init_rows_spec (BitArray (width s0)) (Z.to_nat (height s0)) 0 s0)
    as (st & -> & Hst); [done|done|simpl; lia|].
  intros [= <-]. simpl. repeat split; try lia.
  intros n Hn. apply Hst. right. simpl. lia.
Qed.

Lemma RlcBitmap_wf o s : RlcBitmap o = inr s → wf s.
Proof.
  intros (_ & _ & _ & _ & _ & Hl & Hc & Hr & Hst)%RlcBitmap_inr.
  split.
  - rewrite Hl. lia.
  - done.
  - intros n e. by rewrite Hc, lookup_empty.
  - intros n e. by rewrite Hc, lookup_empty.
  - rewrite Hr. apply NoDup_nil_2.
  - intros n. rewrite Hr, Hc, lookup_empty. split.
    + by intros ?%not_elem_of_nil.
    + by intros [? ?].
  - by left.
Qed.

Lemma RlcBitmap_cacheMaxItems o s N :
  RlcBitmap o = inr s → opt_cacheMaxItems o = Some N → 0 < N →
  cacheMaxItems s = inject_Z N.
Proof.
  intros (_ & _ & _ & _ & Hm & _)%RlcBitmap_inr HN Hpos.
  rewrite Hm. unfold cacheMaxItems_of. rewrite HN.
  rewrite decide_False by lia. done.
Qed.

(** *** Reachable bitmaps *)

Lemma run_call_wf s c : wf s → wf (run_call s c).
Proof.
  intros Hwf. destruct c as [x y|x y onOff|]; simpl.
  - rewrite get_state. by apply getRow_wf.
  - by apply set_wf.
  - by apply flushChanges_wf.
Qed.

Lemma run_call_bit_rows s c :
  wf s → bit_rows s → bit_call c = true → bit_rows (run_call s c).
Proof.
  intros Hwf Hbit Hc. destruct c as [x y|x y onOff|]; simpl.
  - rewrite get_state. by apply getRow_bit_rows.
  - apply set_bit_rows; [done|done|].
    simpl in Hc. by apply bool_decide_eq_true in Hc.
  - unfold bit_rows. by destruct (flushChanges_cache s) as (-> & _).
Qed.

Lemma run_call_shape s c : wf s → same_shape s (run_call s c).
Proof.
  intros Hwf. destruct c as [x y|x y onOff|]; simpl.
  - rewrite get_state. by apply getRow_shape.
  - by apply set_shape.
  - apply flushChanges_cache.
Qed.

Lemma run_calls_wf cs : ∀ s,
  wf s → wf (run_calls s cs) ∧ same_shape s (run_calls s cs).
Proof.
  induction cs as [|c cs IH]; intros s Hwf; simpl; [done|].
  destruct (IH (run_call s c)) as [Hwf' Hsh]; [by apply run_call_wf|].
  split; [done|].
  eapply same_shape_trans; [by apply run_call_shape|done].
Qed.

Lemma run_calls_bit_rows cs : ∀ s,
  wf s → bit_rows s → forallb bit_call cs = true → bit_rows (run_calls s cs).
Proof.
  induction cs as [|c cs IH]; intros s Hwf Hbit Hcs; simpl; [done|].
  simpl in Hcs. apply andb_true_iff in Hcs as [Hc Hcs].
  apply IH; [by apply run_call_wf|by apply run_call_bit_rows|done].
Qed.

Lemma reachable_wf s : reachable s → wf s.
Proof.
  intros (o & s0 & cs & Hnew & <-).
  apply run_calls_wf. by eapply RlcBitmap_wf.
Qed.

Lemma bit_reachable_reachable s : bit_reachable s → reachable s.
Proof. intros (o & s0 & cs & Hnew & _ & Hs). by exists o, s0, cs. Qed.

Lemma bit_reachable_bit_rows s : bit_reachable s → bit_rows s.
Proof.
  intros (o & s0 & cs & Hnew & Hcs & <-).
  apply run_calls_bit_rows; [by eapply RlcBitmap_wf| |done].
  intros n e. destruct (RlcBitmap_inr o s0 Hnew) as (_&_&_&_&_&_& -> & _).
  by rewrite lookup_empty.
Qed.

(** *** What the calls do to the rows the bitmap holds *)

(** After a [set] that returned, the cache entry of the row holds the
    row that [getRow] fetched, with the new value at column [x]. *)
Lemma set_inr x y onOff s s1 :
  wf s → set x y onOff s = (inr tt, s1) →
  ∃ e0 e, cache (getRow y s).2 !! y = Some e0
          ∧ length (data e0) = Z.to_nat (width s)
          ∧ s1 = written (getRow y s).2 x y onOff e0
          ∧ cache s1 !! y = Some e
          ∧ data e = typed_set (data e0) x onOff.
Proof.
  intros Hwf Hset.
  pose proof (getRow_wf y s Hwf) as Hwf1.
  pose proof (getRow_shape y s Hwf) as (Hw & _).
  destruct (set_cases x y onOff s Hwf)
    as [(err & _ & Herr)|(e0 & _ & _ & He0 & Hok)]; [congruence|].
  rewrite Hok in Hset. injection Hset as <-.
  exists e0. eexists. split; [done|]. split.
  - rewrite <- Hw. by apply (wf_length _ Hwf1 y).
  - split; [done|]. simpl. rewrite lookup_insert_eq. done.
Qed.

Lemma set_row_of_ne x y onOff s k :
  wf s → bit_rows s → k ≠ y → row_of (set x y onOff s).2 k = row_of s k.
Proof.
  intros Hwf Hbit Hne. pose proof (getRow_row_of y s k Hwf Hbit) as Hrow.
  destruct (set_cases x y onOff s Hwf) as [(err & _ & ->)|(e & _ & _ & He & ->)];
    simpl; [done|].
  rewrite written_row_of. by rewrite decide_False.
Qed.

Lemma set_row_of_eq x y onOff s s1 :
  wf s → bit_rows s → set x y onOff s = (inr tt, s1) →
  ∃ row, row_of s y = Some row ∧ row_of s1 y = Some (typed_set row x onOff).
Proof.
  intros Hwf Hbit Hset. pose proof (getRow_row_of y s y Hwf Hbit) as Hrow.
  destruct (set_inr x y onOff s s1 Hwf Hset) as (e0 & e & He0 & _ & -> & _).
  exists (data e0). split.
  - rewrite <- Hrow. unfold row_of. by rewrite He0.
  - by rewrite written_row_of, decide_True.
Qed.

Lemma set_failed_row_of x y onOff s err s1 k :
  wf s → bit_rows s → set x y onOff s = (inl err, s1) →
  row_of s1 k = row_of s k.
Proof.
  intros Hwf Hbit Hset. pose proof (getRow_row_of y s k Hwf Hbit) as Hrow.
  destruct (set_cases x y onOff s Hwf)
    as [(err' & _ & Herr)|(e & _ & _ & He & Hok)]; congruence.
Qed.

(** Only a [set] at the same place changes the bit that the bitmap holds
    there: fetching, evicting and flushing rows do not. *)
Lemma run_call_bit_of s c x y :
  wf s → bit_rows s → sets_bit x y c = false →
  bit_of (run_call s c) x y = bit_of s x y.
Proof.
  intros Hwf Hbit Hc. unfold bit_of.
  destruct c as [x' y'|x' y' onOff|]; simpl.
  - by rewrite get_state, getRow_row_of.
  - simpl in Hc. apply bool_decide_eq_false in Hc.
    destruct (decide (y = y')) as [<-|Hne]; [|by rewrite set_row_of_ne].
    destruct (set x' y onOff s) as [[err|[]] s1] eqn:Hset; simpl.
    + by rewrite (set_failed_row_of x' y onOff s err s1 y).
    + destruct (set_row_of_eq x' y onOff s s1 Hwf Hbit Hset) as (row & -> & ->).
      simpl. apply typed_get_set_ne. naive_solver.
  - by rewrite flushChanges_row_of.
Qed.

Lemma run_calls_bit_of cs : ∀ s x y,
  wf s → bit_rows s → forallb bit_call cs = true →
  forallb (λ c, negb (sets_bit x y c)) cs = true →
  bit_of (run_calls s cs) x y = bit_of s x y.
Proof.
  induction cs as [|c cs IH]; intros s x y Hwf Hrows Hbit Hcs; simpl; [done|].
  simpl in Hbit, Hcs.
  apply andb_true_iff in Hbit as [Hb Hbit].
  apply andb_true_iff in Hcs as [Hc Hcs].
  apply negb_true_iff in Hc.
  rewrite IH;
    [|by apply run_call_wf|by apply run_call_bit_rows|done|done].
  by apply run_call_bit_of.
Qed.

(** *** The queue of cached rows *)

Lemma getRow_cacheRows N n s :
  wf s → cacheMaxItems s = inject_Z N → 0 < N → 0 ≤ n < height s →
  cacheRows (getRow n s).2 = fifo N (cacheRows s) n.
Proof.
  intros Hwf Hmax HN Hn. unfold fifo.
  assert (Hroom : (1 <= cacheMaxItems s)%Q).
  { rewrite Hmax. change 1%Q with (inject_Z 1). rewrite <- Zle_Qle. lia. }
  destruct (getRow_ok n s Hwf Hn Hroom) as [row Hrow].
  destruct (getRow_cases n s Hwf) as [| e ? He | | | rlc ? Hc];
    simpl in *; try discriminate.
  - rewrite decide_True; [done|]. apply (wf_rows s Hwf). eauto.
  - rewrite decide_False by (rewrite (wf_rows s Hwf), Hc; by intros [? ?]).
    f_equal. case_decide as Hlen.
    + rewrite freeCacheSpace_fits; [done|].
      rewrite Hmax, <- Zle_Qle. lia.
    + destruct (wf_size s Hwf) as [Hnil|Hsz].
      { rewrite Hnil in Hlen. simpl in Hlen. lia. }
      rewrite Hmax, <- Zle_Qle in Hsz.
      destruct (cacheRows s) as [|rowId rest] eqn:Hrows; [simpl in *; lia|].
      assert (Hin : is_Some (cache s !! rowId)).
      { apply (wf_rows s Hwf). rewrite Hrows. apply elem_of_cons. by left. }
      destruct Hin as [r Hr].
      rewrite (freeCacheSpace_full s rowId rest r N) by (done || lia).
      simpl. apply evicted_fields.
Qed.

Lemma run_call_cacheRows N s c :
  wf s → cacheMaxItems s = inject_Z N → 0 < N →
  valid_row (height s) c = true →
  cacheRows (run_call s c) = fifo_call N (cacheRows s) c.
Proof.
  intros Hwf Hmax HN Hc. unfold fifo_call, valid_row in *.
  destruct c as [x y|x y onOff|]; simpl in *.
  - apply bool_decide_eq_true in Hc.
    rewrite get_state. by apply getRow_cacheRows.
  - apply bool_decide_eq_true in Hc.
    rewrite <- (getRow_cacheRows N y s) by done.
    by destruct (set_cases x y onOff s Hwf)
      as [(err & _ & ->)|(e & _ & _ & He & ->)].
  - apply flushChanges_cache.
Qed.

Lemma run_calls_cacheRows N cs : ∀ s,
  wf s → cacheMaxItems s = inject_Z N → 0 < N →
  forallb (valid_row (height s)) cs = true →
  cacheRows (run_calls s cs) = foldl (fifo_call N) (cacheRows s) cs.
Proof.
  induction cs as [|c cs IH]; intros s Hwf Hmax HN Hval; simpl; [done|].
  simpl in Hval.
  apply andb_true_iff in Hval as [Hv Hval].
  destruct (run_call_shape s c Hwf) as (_ & Hh & Hm & _).
  rewrite IH; [|by apply run_call_wf|congruence|done|by rewrite Hh].
  by rewrite (run_call_cacheRows N).
Qed.

Lemma note_row_length rows c :
  (length rows ≤ length (note_row rows c))%nat.
Proof.
  unfold note_row. destruct (call_row c); [|done].
  case_decide; [done|]. rewrite length_app. lia.
Qed.

Lemma foldl_note_row_length cs : ∀ rows,
  (length rows ≤ length (foldl note_row rows cs))%nat.
Proof.
  induction cs as [|c cs IH]; intros rows; simpl; [done|].
  etrans; [apply (note_row_length rows c)|apply IH].
Qed.

(** As long as no more than [N] distinct rows have been asked for, no row
    leaves the queue. *)
Lemma foldl_fifo_no_eviction N cs : ∀ rows,
  Z.of_nat (length (foldl note_row rows cs)) ≤ N →
  foldl (fifo_call N) rows cs = foldl note_row rows cs.
Proof.
  induction cs as [|c cs IH]; intros rows Hlen; simpl in *; [done|].
  assert (Hstep : fifo_call N rows c = note_row rows c).
  { pose proof (foldl_note_row_length cs (note_row rows c)) as Hmono.
    unfold fifo_call, note_row, fifo in *.
    destruct (call_row c) as [y|]; [|done].
    case_decide; [done|]. rewrite length_app in Hmono. simpl in Hmono.
    rewrite decide_True; [done|lia]. }
  rewrite Hstep. by apply IH.
Qed.

Lemma row_of_length s n row :
  wf s → row_of s n = Some row → length row = Z.to_nat (width s).
Proof.
  intros Hwf. unfold row_of.
  destruct (cache s !! n) as [e|] eqn:He.
  - intros [= <-]. by apply (wf_length s Hwf n).
  - destruct (store s !! n) as [rlc|]; [|done]. intros [= <-].
    apply rlcDecode_length.
Qed.

Lemma typed_get_outside row x :
  x < 0 ∨ Z.of_nat (length row) ≤ x → typed_get row x = None.
Proof.
  intros Hx. unfold typed_get. case_decide; [|done].
  apply lookup_ge_None_2. lia.
Qed.

Lemma typed_set_outside row x v :
  x < 0 ∨ Z.of_nat (length row) ≤ x → typed_set row x v = row.
Proof.
  intros Hx. unfold typed_set. case_decide; [|done].
  apply list_insert_ge. lia.
Qed.

(** The cache holds as many entries as there are rows in the queue. *)
Lemma cache_size s : wf s → size (cache s) = length (cacheRows s).
Proof.
  intros Hwf. rewrite <- size_dom.
  rewrite <- (size_list_to_set (C := gset Z) (cacheRows s))
    by apply (wf_nodup s Hwf).
  f_equal. apply set_eq. intros n.
  by rewrite elem_of_dom, elem_of_list_to_set, (wf_rows s Hwf).
Qed.

(** ** Example bitmaps *)

Lemma blank_8x3_1 : RlcBitmap (Options 8 3 (Some 1)) = inr (blank_8x3 1).
Proof. vm_compute. reflexivity. Qed.

Lemma blank_8x3_2 : RlcBitmap (Options 8 3 (Some 2)) = inr (blank_8x3 2).
Proof. vm_compute. reflexivity. Qed.

Lemma blank_8x3_1_reachable cs :
  forallb bit_call cs = true → bit_reachable (run_calls (blank_8x3 1) cs).
Proof.
  intros Hcs. exists (Options 8 3 (Some 1)), (blank_8x3 1), cs.
  split; [apply blank_8x3_1|done].
Qed.

(** Scenarios of use, run on the embedding. *)
Example encode_scenario_1 : rlcEncode 65000 [0;0;0;1;0;0;0;0] = [3; 1; 4; 0].
Proof. vm_compute. reflexivity. Qed.

Example decode_scenario_1 : rlcDecode 8 [3; 1; 4; 0] = [0;0;0;1;0;0;0;0].
Proof. vm_compute. reflexivity. Qed.

Example decode_scenario_2 : rlcDecode 4 [0; 4; 0] = [1;1;1;1].
Proof. vm_compute. reflexivity. Qed.

Example eviction_scenario_3 :
  cacheRows (run_calls (blank_8x3 2) [CallGet 0 0; CallGet 0 1; CallGet 0 2])
  = [1; 2].
Proof. vm_compute. reflexivity. Qed.

Example write_back_scenario_4 :
  (get 0 0 (run_calls (blank_8x3 1) [CallSet 0 0 1; CallGet 0 1])).1
  = inr (Some 1).
Proof. vm_compute. reflexivity. Qed.

Example construction_scenario_5 :
  RlcBitmap (Options 8 0 None) = inl WidthHeightRequired.
Proof. reflexivity. Qed.

(** With a short maximal run the chaining shows on a short row: seven
    zeros and four ones, runs of at most three. *)
Example overlong_runs :
  rlcEncode 3 [0;0;0;0;0;0;0;1;1;1;1] = [3; 0; 3; 0; 1; 3; 0; 1]
  ∧ rlcDecode 11 [3; 0; 3; 0; 1; 3; 0; 1] = [0;0;0;0;0;0;0;1;1;1;1].
Proof. split; vm_compute; reflexivity. Qed.

(** [flushChanges] looks the cache up at the loop counter, not at the
    queued row number: with row 1 alone in the cache it throws, and row 1
    is not written back. *)
Example flushChanges_counter_not_row :
  let s := run_calls (blank_8x3 1) [CallSet 0 1 1] in
  cacheRows s = [1]
  ∧ (flushChanges s).1 = inl TypeError
  ∧ store (flushChanges s).2 !! 1 = Some [8; 0].
Proof. repeat split; vm_compute; reflexivity. Qed.

(** One row past the last is let through by the bounds test; the row is
    not in the store and decoding it throws. *)
Example getRow_at_height :
  (get 0 3 (blank_8x3 1)).1 = inl TypeError
  ∧ (get 0 4 (blank_8x3 1)).1 = inl (RowOutOfBounds 4).
Proof. split; vm_compute; reflexivity. Qed.

(** ** The codec: round trip, number of counts, size of counts *)

(** C1. For every width [W >= 0] and every row of [W] bits, decoding at
    width [W] what [rlcEncode] made of the row gives the row back; rows
    with runs longer than [maxRunLength] (65000) are included. *)
Theorem rlcDecode_rlcEncode (W : Z) (row : list Z) :
  0 ≤ W → Z.of_nat (length row) = W → bits row →
  rlcDecode W (rlcEncode 65000 row) = row.
Proof.
  intros HW Hlen Hbits. apply rlc_round_trip; [lia|done|lia].
Qed.

Lemma rlcDecode_rlcEncode_witness :
  bits [0;0;0;1;0;0;0;0]
  ∧ rlcDecode 8 (rlcEncode 65000 [0;0;0;1;0;0;0;0]) = [0;0;0;1;0;0;0;0].
Proof.
  split; [bits_of_list|].
  apply (rlcDecode_rlcEncode 8 [0;0;0;1;0;0;0;0]);
    [lia | reflexivity | bits_of_list].
Defined.

(** C8. The claim is that [rlcEncode] always returns an even number of
    counts.  On the row of four ones it returns the three counts 0, 4, 0:
    the last test of [rlcEncode] looks at the parity of the row position
    [rowi], which is the length of the row, and not at the number of counts
    emitted.  The same happens for [0;1], which gets the counts 1, 1, 0, and
    for the one-bit row [0], which gets the single count 1. *)
Theorem rlcEncode_odd_number_of_counts :
  rlcEncode 65000 [1;1;1;1] = [0; 4; 0]
  ∧ Nat.even (length (rlcEncode 65000 [1;1;1;1])) = false
  ∧ rlcEncode 65000 [0;1] = [1; 1; 0]
  ∧ rlcEncode 65000 [0] = [1].
Proof. repeat split; vm_compute; reflexivity. Qed.

(** C9. Every count that [rlcEncode] returns is between 0 and
    [maxRunLength] (65000).  When the run at [rowi] goes on for more than
    [maxRunLength] positions, a round of the loop emits [maxRunLength]
    followed by a zero-length run of the other colour and goes on with the
    rest of the run; and a row of bits, however long its runs, decodes back
    to itself. *)
Theorem rlcEncode_counts_at_most_maxRunLength (row : list Z) :
  Forall (λ c, 0 ≤ c ≤ 65000) (rlcEncode 65000 row)
  ∧ (∀ fuel rowi rlc,
       (rowi + Z.to_nat 65000 < length row)%nat →
       (∀ i, (rowi ≤ i ≤ rowi + Z.to_nat 65000)%nat →
             row !! i = row !! rowi) →
       rlcEncode_loop 65000 row (S fuel) rowi rlc
       = rlcEncode_loop 65000 row fuel (rowi + Z.to_nat 65000)
           (rlc ++ [65000; 0]))
  ∧ (bits row →
     rlcDecode (Z.of_nat (length row)) (rlcEncode 65000 row) = row).
Proof.
  split; [|split].
  - apply (rlcEncode_counts 65000). lia.
  - intros fuel rowi rlc. apply (rlcEncode_loop_overlong 65000). lia.
  - intros Hbits. apply rlc_round_trip; [lia|done|lia].
Qed.

Lemma rlcEncode_counts_at_most_maxRunLength_witness :
  bits [1;1;1;1]
  ∧ Forall (λ c, 0 ≤ c ≤ 65000) (rlcEncode 65000 [1;1;1;1])
  ∧ rlcDecode 4 (rlcEncode 65000 [1;1;1;1]) = [1;1;1;1].
Proof.
  assert (Hbits : bits [1;1;1;1]) by bits_of_list.
  destruct (rlcEncode_counts_at_most_maxRunLength [1;1;1;1])
    as (Hcounts & _ & Hback).
  split; [exact Hbits|]. split; [exact Hcounts|]. exact (Hback Hbits).
Defined.

(** ** The constructor: [cacheMaxItems] *)

(** C4, as the program has it.  [cacheMaxItems] is the configured value
    when a positive integer is given, which is then [max(1, value)]; when
    none is given (or 0 is given) it is the product [height * .05], with no
    floor of 1.  The product is stated by what the program does with it,
    its comparisons with integers, for a height below [2 ^ 32] (the
    constructor makes an array of [height] slots, which no larger height
    allows): an integer [k] is at most [cacheMaxItems] exactly when
    [20 * k <= height], and above it exactly when [height < 20 * k]; so
    [cacheMaxItems] is at least 1 exactly when [height >= 20]. *)
Theorem cacheMaxItems_configured_or_default (o : options) (s : bitmap) :
  RlcBitmap o = inr s →
  (∀ c, opt_cacheMaxItems o = Some c → 0 < c →
        cacheMaxItems s = inject_Z (Z.max 1 c))
  ∧ (opt_cacheMaxItems o = None ∨ opt_cacheMaxItems o = Some 0 →
     height s < 2 ^ 32 →
     (∀ k : Z, ((inject_Z k <= cacheMaxItems s)%Q ↔ 20 * k ≤ height s)
               ∧ ((cacheMaxItems s < inject_Z k)%Q ↔ height s < 20 * k))
     ∧ ((1 <= cacheMaxItems s)%Q ↔ 20 ≤ height s)).
Proof.
  intros (_ & _ & _ & Hh & Hm & _)%RlcBitmap_inr.
  rewrite Hm, Hh. unfold cacheMaxItems_of. split.
  - intros c -> Hc. rewrite decide_False by lia. f_equal. lia.
  - intros Hnone _.
    assert (Hdef : match opt_cacheMaxItems o with
                   | Some c => if decide (c = 0)
                               then (inject_Z (opt_height o) * 0.05)%Q
                               else inject_Z c
                   | None => (inject_Z (opt_height o) * 0.05)%Q
                   end = (inject_Z (opt_height o) * 0.05)%Q).
    { destruct Hnone as [->| ->]; [done|]. by rewrite decide_True. }
    rewrite Hdef. split.
    + intros k. unfold Qle, Qlt, Qmult, inject_Z. simpl. lia.
    + unfold Qle, Qmult, inject_Z. simpl. lia.
Qed.

Lemma cacheMaxItems_configured_or_default_witness :
  cacheMaxItems (blank_8x3 2) = inject_Z (Z.max 1 2)
  ∧ match RlcBitmap (Options 8 40 None) with
    | inr s => (inject_Z 2 <= cacheMaxItems s)%Q
               ∧ (cacheMaxItems s < inject_Z 3)%Q
    | inl _ => False
    end.
Proof.
  split.
  - apply (proj1 (cacheMaxItems_configured_or_default (Options 8 3 (Some 2))
                    (blank_8x3 2) blank_8x3_2) 2); [reflexivity|lia].
  - destruct (RlcBitmap (Options 8 40 None)) as [err|s] eqn:Hs;
      [vm_compute in Hs; discriminate|].
    pose proof (RlcBitmap_inr _ _ Hs) as (_ & _ & _ & Hh & _).
    simpl in Hh.
    destruct (proj2 (cacheMaxItems_configured_or_default _ s Hs)) as [Hk _];
      [by left|lia|].
    split; [apply (Hk 2)|apply (Hk 3)]; lia.
Defined.

(** C4, as the claim has it, fails: with [height = 10] and no
    [cacheMaxItems], the constructor leaves [cacheMaxItems] at one half,
    below 1, and a [get] then throws in [freeCacheSpace]. *)
Lemma default_cacheMaxItems_below_one :
  ∃ s, RlcBitmap (Options 8 10 None) = inr s
       ∧ (cacheMaxItems s < 1)%Q
       ∧ ¬ (1 <= cacheMaxItems s)%Q
       ∧ (get 0 0 s).1 = inl TypeError.
Proof.
  eexists. split; [vm_compute; reflexivity|].
  split; [reflexivity|]. split; [|vm_compute; reflexivity].
  intros Hle. apply (Qlt_not_le _ _ (eq_refl : (0.50 < 1)%Q)). exact Hle.
Qed.

(** ** [flushChanges] *)

(** C2, as the program has it.  [flushChanges] takes no entry out of the
    cache and changes none: every entry keeps its row, and its [modified]
    flag, which is never cleared.  A row of the store is either left as it
    was or is replaced by the encoding of the modified entry cached for
    that row. *)
Theorem flushChanges_keeps_cache (s : bitmap) :
  cache (flushChanges s).2 = cache s
  ∧ cacheRows (flushChanges s).2 = cacheRows s
  ∧ ∀ n, store (flushChanges s).2 !! n = store s !! n
         ∨ ∃ e, cache s !! n = Some e ∧ modified e = true
                ∧ store (flushChanges s).2 !! n
                  = Some (rlcEncode (maxRunLength s) (data e)).
Proof.
  destruct (flushChanges_cache s) as (Hc & Hr & _).
  split; [done|]. split; [done|]. intros n.
  apply (flushChanges_invariant
           (λ s', cache s' = cache s ∧ maxRunLength s' = maxRunLength s
                  ∧ (store s' !! n = store s !! n
                     ∨ ∃ e, cache s !! n = Some e ∧ modified e = true
                            ∧ store s' !! n
                              = Some (rlcEncode (maxRunLength s) (data e)))));
    [|by auto].
  intros s' i row (Hc' & Hl' & Hst) Hrow.
  destruct (flushed_fields s' i row) as (-> & _ & (_ & _ & _ & ->)).
  split; [done|]. split; [done|].
  rewrite flushed_store. case_decide as H; [|done].
  destruct H as [-> Hmod]. right. exists row.
  by rewrite <- Hc', <- Hl'.
Qed.

(** C2, as the claim has it, fails: after [set(0, 0, 1)] row 0 is cached
    and modified; [flushChanges] writes it back, and the entry is still
    marked modified afterwards. *)
Lemma flushChanges_keeps_modified_flag :
  let s := run_calls (blank_8x3 1) [CallSet 0 0 1] in
  (flushChanges s).1 = inr tt
  ∧ store (flushChanges s).2 !! 0 = Some (rlcEncode 65000 [1;0;0;0;0;0;0;0])
  ∧ ¬ (∀ n e, cache s !! n = Some e → modified e = true →
              ∃ e', cache (flushChanges s).2 !! n = Some e'
                    ∧ modified e' = false).
Proof.
  split; [vm_compute; reflexivity|]. split; [vm_compute; reflexivity|].
  intros Hclaim.
  destruct (Hclaim 0 (Entry 0 true [1;0;0;0;0;0;0;0]))
    as (e' & He' & Hmod); [vm_compute; reflexivity|reflexivity|].
  vm_compute in He'. injection He' as <-. discriminate Hmod.
Qed.

(** ** Bounds *)

(** C3, as the program has it.  [get] and [set] throw the row-out-of-bounds
    error exactly when [y < 0] or [y > height], whatever [x] is, and leave
    the bitmap as it was.  The column is not checked: with [x] outside
    [0, width), a [get] that returns returns [undefined], and a [set]
    writes to no row.  It leaves the store, the queue and every cache entry
    but that of row [y] as fetching row [y] left them; the entry of row [y]
    keeps its row number and its array, and is marked modified when [set]
    returns.  What fetching row [y] does can itself change what is read
    where values other than 0 and 1 were written (an evicted row is
    encoded again); on a bitmap written with bit values no bit of any row
    changes.  On a row below [height] of a bitmap whose cache can hold a
    row both return without an exception. *)
Theorem row_bounds_checked (s : bitmap) (x y onOff : Z) :
  reachable s →
  (y < 0 ∨ y > height s →
     get x y s = (inl (RowOutOfBounds y), s)
     ∧ set x y onOff s = (inl (RowOutOfBounds y), s))
  ∧ (0 ≤ y ≤ height s →
     ∀ n, (get x y s).1 ≠ inl (RowOutOfBounds n)
          ∧ (set x y onOff s).1 ≠ inl (RowOutOfBounds n))
  ∧ (x < 0 ∨ width s ≤ x →
     (∀ v, (get x y s).1 = inr v → v = None)
     ∧ (store (set x y onOff s).2 = store (getRow y s).2
        ∧ cacheRows (set x y onOff s).2 = cacheRows (getRow y s).2
        ∧ (∀ k, k ≠ y →
                cache (set x y onOff s).2 !! k = cache (getRow y s).2 !! k)
        ∧ data <$> cache (set x y onOff s).2 !! y
          = data <$> cache (getRow y s).2 !! y
        ∧ rowId <$> cache (set x y onOff s).2 !! y
          = rowId <$> cache (getRow y s).2 !! y
        ∧ ((set x y onOff s).1 = inr tt →
           modified <$> cache (set x y onOff s).2 !! y = Some true))
     ∧ (bit_reachable s → ∀ k, row_of (set x y onOff s).2 k = row_of s k)
     ∧ (0 ≤ y < height s → (1 <= cacheMaxItems s)%Q →
        (get x y s).1 = inr None ∧ (set x y onOff s).1 = inr tt)).
Proof.
  intros Hwf%reachable_wf.
  assert (Hget : get x y s
                 = match getRow y s with
                   | (inl err, s1) => (inl err, s1)
                   | (inr row, s1) => (inr (typed_get row x), s1)
                   end) by done.
  split; [|split].
  - intros Hy. rewrite set_unfold, Hget. unfold getRow.
    by rewrite decide_True.
  - intros Hy n.
    assert (Hrow : (getRow y s).1 ≠ inl (RowOutOfBounds n)).
    { destruct (getRow_cases y s Hwf); simpl; try discriminate. lia. }
    split.
    + rewrite Hget.
      destruct (getRow y s) as [[err|row] s1]; simpl in *; [|discriminate].
      intros [= ->]. by apply Hrow.
    + destruct (set_cases x y onOff s Hwf)
        as [(err & Herr & ->)|(e & _ & _ & _ & ->)]; [|discriminate].
      simpl. rewrite Herr in Hrow. simpl in Hrow.
      intros [= ->]. by apply Hrow.
  - intros Hx.
    assert (Hnone : ∀ v, (get x y s).1 = inr v → v = None).
    { intros v. rewrite Hget.
      destruct (getRow y s) as [[err|row] s1] eqn:Hrow; simpl; [done|].
      intros [= <-].
      destruct (getRow_inr y s row s1 Hwf Hrow) as (_ & e & He & <-).
      pose proof (getRow_wf y s Hwf) as Hwf1.
      pose proof (getRow_shape y s Hwf) as (Hw & _).
      rewrite Hrow in Hwf1, Hw. simpl in Hwf1, Hw.
      pose proof (wf_length s1 Hwf1 y e He) as Hlen.
      apply typed_get_outside. lia. }
    split; [done|]. split; [|split].
    + pose proof (getRow_wf y s Hwf) as Hwf1.
      pose proof (getRow_shape y s Hwf) as (Hw1 & _).
      destruct (set_cases x y onOff s Hwf)
        as [(err & _ & ->)|(e & _ & _ & He & ->)]; [done|].
      pose proof (wf_length _ Hwf1 y e He) as Hlen.
      simpl. split; [done|]. split; [done|]. split; [|split; [|split]].
      * intros k Hne. by rewrite lookup_insert_ne.
      * rewrite lookup_insert_eq, He. simpl. f_equal.
        apply typed_set_outside. lia.
      * by rewrite lookup_insert_eq, He.
      * intros _. by rewrite lookup_insert_eq.
    + intros Hbit%bit_reachable_bit_rows k.
      destruct (set x y onOff s) as [[err|[]] s1] eqn:Hset; simpl.
      * by apply (set_failed_row_of x y onOff s err).
      * destruct (decide (k = y)) as [->|Hne].
        -- destruct (set_row_of_eq x y onOff s s1 Hwf Hbit Hset)
             as (row & Hrow & ->).
           pose proof (row_of_length s y row Hwf Hrow) as Hlen.
           rewrite Hrow, typed_set_outside; [done|lia].
        -- replace s1 with (set x y onOff s).2 by (by rewrite Hset).
           by apply set_row_of_ne.
    + intros Hy Hroom.
      destruct (getRow_ok y s Hwf Hy Hroom) as [row Hrow].
      split.
      * assert (Hv : (get x y s).1 = inr (typed_get row x)).
        { rewrite Hget. destruct (getRow y s) as [[err|row'] s1]; simpl in *;
            congruence. }
        rewrite Hv. f_equal. by apply Hnone.
      * destruct (set_cases x y onOff s Hwf)
          as [(err & Herr & _)|(e & _ & _ & _ & ->)]; [|done].
        rewrite Herr in Hrow. discriminate.
Qed.

Lemma row_bounds_checked_witness :
  get 8 4 (blank_8x3 1) = (inl (RowOutOfBounds 4), blank_8x3 1)
  ∧ (get 8 0 (blank_8x3 1)).1 = inr None.
Proof.
  assert (Hreach : reachable (blank_8x3 1)).
  { exists (Options 8 3 (Some 1)), (blank_8x3 1), [].
    split; [apply blank_8x3_1|reflexivity]. }
  pose proof (row_bounds_checked (blank_8x3 1) 8 4 0 Hreach) as (Hout & _ & _).
  pose proof (row_bounds_checked (blank_8x3 1) 8 0 0 Hreach) as (_ & _ & Hcol).
  split.
  - apply Hout. right. reflexivity.
  - apply Hcol.
    + right. discriminate.
    + split; [discriminate|reflexivity].
    + discriminate.
Defined.

(** C3, as the claim has it, fails: on a bitmap 8 bits wide [get(8, 0)]
    throws nothing and returns [undefined]. *)
Lemma get_at_width_returns_undefined :
  width (blank_8x3 1) = 8
  ∧ (get 8 0 (blank_8x3 1)).1 = inr None
  ∧ ¬ (∃ err, (get 8 0 (blank_8x3 1)).1 = inl err).
Proof.
  split; [reflexivity|]. split; [vm_compute; reflexivity|].
  intros [err Herr]. vm_compute in Herr. discriminate Herr.
Qed.

(** ** Reading back what was written *)

(** C10. On every bitmap, with [0 <= x < width], [0 <= y < height] and a
    bit [v]: a [set(x, y, v)] that returns leaves the stored counts of row
    [y] as they were, and the [get(x, y)] that follows returns [v] from the
    cache, without changing the bitmap.  [set] does return whenever the
    cache can hold a row. *)
Theorem get_after_set (s : bitmap) (x y v : Z) :
  reachable s → 0 ≤ x < width s → 0 ≤ y < height s → is_bit v →
  ((1 <= cacheMaxItems s)%Q → ∃ s1, set x y v s = (inr tt, s1))
  ∧ (∀ s1, set x y v s = (inr tt, s1) →
       get x y s1 = (inr (Some v), s1)
       ∧ store s1 !! y = store s !! y).
Proof.
  intros Hwf%reachable_wf Hx Hy Hv. split.
  - intros Hroom. destruct (getRow_ok y s Hwf Hy Hroom) as [row Hrow].
    destruct (set_cases x y v s Hwf)
      as [(err & Herr & _)|(e & _ & _ & _ & ->)]; [|eauto].
    rewrite Herr in Hrow. discriminate.
  - intros s1 Hset.
    destruct (set_inr x y v s s1 Hwf Hset) as (e0 & e & He0 & Hlen & Hs1 & He & Hdata).
    split.
    + unfold get, getRow.
      assert (Hh : height s1 = height s).
      { replace s1 with (set x y v s).2 by (by rewrite Hset).
        by apply set_shape. }
      rewrite decide_False by lia. rewrite He, Hdata.
      rewrite typed_get_set; [done|lia|lia|done].
    + rewrite Hs1. simpl.
      destruct (getRow_cases y s Hwf); simpl;
        first [done | by apply freeCacheSpace_store].
Qed.

Lemma get_after_set_witness :
  ∃ s1, set 3 2 1 (blank_8x3 1) = (inr tt, s1)
        ∧ get 3 2 s1 = (inr (Some 1), s1)
        ∧ store s1 !! 2 = Some [8; 0].
Proof.
  assert (Hreach : reachable (blank_8x3 1)).
  { exists (Options 8 3 (Some 1)), (blank_8x3 1), [].
    split; [apply blank_8x3_1|reflexivity]. }
  destruct (get_after_set (blank_8x3 1) 3 2 1 Hreach)
    as [Hreturns Hget];
    [split; [discriminate|reflexivity] | split; [discriminate|reflexivity]
    | by right |].
  destruct Hreturns as [s1 Hset]; [discriminate|].
  exists s1. split; [exact Hset|]. apply (Hget s1 Hset).
Defined.

(** C5. On every bitmap, with [0 <= x < width], [0 <= y < height] and a
    bit [v]: after a [set(x, y, v)] that returned, and after any further
    calls of [get], [set] with bit values and [flushChanges], none of them
    a [set] at [(x, y)], if row [y] is no longer in the cache then the
    store holds counts for row [y] that decode to a row with [v] at column
    [x], and [get(x, y)] returns [v]. *)
Theorem write_back_before_eviction (s : bitmap) (x y v : Z) (s1 : bitmap)
    (cs : list call) :
  bit_reachable s → 0 ≤ x < width s → 0 ≤ y < height s → is_bit v →
  set x y v s = (inr tt, s1) →
  forallb bit_call cs = true →
  forallb (λ c, negb (sets_bit x y c)) cs = true →
  cache (run_calls s1 cs) !! y = None →
  (∃ rlc, store (run_calls s1 cs) !! y = Some rlc
          ∧ typed_get (rlcDecode (width s) rlc) x = Some v)
  ∧ (get x y (run_calls s1 cs)).1 = inr (Some v).
Proof.
  intros Hreach Hx Hy Hv Hset Hbit Hcs Hgone.
  pose proof (bit_reachable_bit_rows s Hreach) as Hrows.
  pose proof (reachable_wf s (bit_reachable_reachable s Hreach)) as Hwf.
  assert (Hs1 : s1 = (set x y v s).2) by (by rewrite Hset).
  assert (Hwf1 : wf s1) by (rewrite Hs1; by apply set_wf).
  assert (Hrows1 : bit_rows s1) by (rewrite Hs1; by apply set_bit_rows).
  pose proof (set_shape x y v s Hwf) as (Hw1 & Hh1 & Hm1 & _).
  rewrite <- Hs1 in Hw1, Hh1, Hm1.
  destruct (set_row_of_eq x y v s s1 Hwf Hrows Hset) as (row & Hrow & Hrow1).
  destruct (set_inr x y v s s1 Hwf Hset) as (_ & e & _ & _ & _ & He & _).
  pose proof (row_of_length s y row Hwf Hrow) as Hlen.
  assert (Hbit1 : bit_of s1 x y = Some v).
  { unfold bit_of. rewrite Hrow1. simpl.
    apply typed_get_set; [lia|lia|done]. }
  destruct (run_calls_wf cs s1 Hwf1) as [Hwf2 (Hw2 & Hh2 & Hm2 & _)].
  pose proof (run_calls_bit_rows cs s1 Hwf1 Hrows1 Hbit) as Hrows2.
  pose proof (run_calls_bit_of cs s1 x y Hwf1 Hrows1 Hbit Hcs) as Hbit2.
  rewrite Hbit1 in Hbit2.
  set (s2 := run_calls s1 cs) in *.
  split.
  - unfold bit_of, row_of in Hbit2. rewrite Hgone in Hbit2.
    destruct (store s2 !! y) as [rlc|]; [|done].
    exists rlc. split; [done|]. simpl in Hbit2. by rewrite <- Hw1, <- Hw2.
  - assert (Hroom : (1 <= cacheMaxItems s2)%Q).
    { rewrite Hm2. by apply (cached_room s1 y e). }
    destruct (getRow_ok y s2 Hwf2) as [row2 Hrow2]; [lia|done|].
    assert (Hget : (get x y s2).1 = inr (typed_get row2 x)).
    { unfold get. destruct (getRow y s2) as [[err|row'] s3]; simpl in *;
        congruence. }
    rewrite Hget. f_equal. rewrite <- Hbit2.
    by apply get_inr.
Qed.

Lemma write_back_before_eviction_witness :
  ∃ s1, set 0 0 1 (blank_8x3 1) = (inr tt, s1)
        ∧ cache (run_calls s1 [CallFlush; CallGet 0 1]) !! 0 = None
        ∧ (get 0 0 (run_calls s1 [CallFlush; CallGet 0 1])).1 = inr (Some 1).
Proof.
  eexists. split; [vm_compute; reflexivity|]. split; [vm_compute; reflexivity|].
  eapply (write_back_before_eviction (blank_8x3 1) 0 0 1 _
            [CallFlush; CallGet 0 1] (blank_8x3_1_reachable [] eq_refl)).
  - split; [discriminate|reflexivity].
  - split; [discriminate|reflexivity].
  - by right.
  - vm_compute; reflexivity.
  - reflexivity.
  - reflexivity.
  - vm_compute; reflexivity.
Defined.

(** ** The cache: capacity and order of eviction *)

(** C7. On a bitmap made with a positive integer [cacheMaxItems], after
    any sequence of calls of [get], [set] and [flushChanges], at whatever
    coordinates and with whatever values, the cache holds at most
    [cacheMaxItems] entries. *)
Theorem cache_holds_at_most_cacheMaxItems (o : options) (N : Z)
    (s0 : bitmap) (cs : list call) :
  RlcBitmap o = inr s0 → opt_cacheMaxItems o = Some N → 0 < N →
  Z.of_nat (size (cache (run_calls s0 cs))) ≤ N.
Proof.
  intros Hnew HN Hpos.
  pose proof (RlcBitmap_wf o s0 Hnew) as Hwf0.
  destruct (run_calls_wf cs s0 Hwf0) as [Hwf (_ & _ & Hm & _)].
  pose proof (RlcBitmap_cacheMaxItems o s0 N Hnew HN Hpos) as Hmax.
  rewrite (cache_size _ Hwf).
  destruct (wf_size _ Hwf) as [->|Hsz]; [simpl; lia|].
  rewrite Hm, Hmax, <- Zle_Qle in Hsz. exact Hsz.
Qed.

Lemma cache_holds_at_most_cacheMaxItems_witness :
  Z.of_nat (size (cache (run_calls (blank_8x3 2)
                           [CallGet 0 0; CallSet 1 1 1; CallGet 0 2]))) ≤ 2.
Proof.
  apply (cache_holds_at_most_cacheMaxItems (Options 8 3 (Some 2)) 2
           (blank_8x3 2) [CallGet 0 0; CallSet 1 1 1; CallGet 0 2]
           blank_8x3_2); [reflexivity|lia].
Defined.

(** C6. On a bitmap made with a positive integer [cacheMaxItems = N]: let
    calls of [get] and [set] ask for the [N] distinct rows [r0], ..., in
    that order of first access, each as often as one likes (so [r0] may be
    read or written again after the others), and let a further call ask for
    a new row [rN].  Before that call the queue is [r0], ... in the order of
    first access; the call takes [r0], the row cached first, out of the
    cache, keeps the others and queues [rN] last. *)
Theorem eviction_is_fifo (o : options) (N : Z) (s0 : bitmap)
    (cs : list call) (c : call) (r0 : Z) (rs : list Z) (rN : Z) :
  RlcBitmap o = inr s0 → opt_cacheMaxItems o = Some N → 0 < N →
  forallb (valid_row (height s0)) (cs ++ [c]) = true →
  first_access cs = r0 :: rs → Z.of_nat (length (r0 :: rs)) = N →
  call_row c = Some rN → rN ∉ r0 :: rs →
  cacheRows (run_calls s0 cs) = r0 :: rs
  ∧ cacheRows (run_calls s0 (cs ++ [c])) = rs ++ [rN]
  ∧ cache (run_calls s0 (cs ++ [c])) !! r0 = None
  ∧ ∀ r, r ∈ rs ++ [rN] → is_Some (cache (run_calls s0 (cs ++ [c])) !! r).
Proof.
  intros Hnew HN Hpos Hval Hfirst Hlen Hc HrN.
  rewrite forallb_app in Hval.
  apply andb_true_iff in Hval as [Hval Hvalc].
  simpl in Hvalc. rewrite andb_true_r in Hvalc.
  pose proof (RlcBitmap_wf o s0 Hnew) as Hwf0.
  pose proof (RlcBitmap_cacheMaxItems o s0 N Hnew HN Hpos) as Hmax0.
  destruct (RlcBitmap_inr o s0 Hnew) as (_ & _ & _ & _ & _ & _ & _ & Hr0 & _).
  destruct (run_calls_wf cs s0 Hwf0) as [Hwf (_ & Hh & Hm & _)].
  assert (Hrows : cacheRows (run_calls s0 cs) = r0 :: rs).
  { rewrite (run_calls_cacheRows N) by done.
    rewrite Hr0, foldl_fifo_no_eviction; [done|].
    fold (first_access cs). rewrite Hfirst. lia. }
  assert (Hrows' : cacheRows (run_calls s0 (cs ++ [c])) = rs ++ [rN]).
  { unfold run_calls. rewrite foldl_app. simpl. fold (run_calls s0 cs).
    rewrite (run_call_cacheRows N);
      [|done|by rewrite Hm|done|by rewrite Hh].
    unfold fifo_call. rewrite Hc, Hrows. unfold fifo.
    rewrite decide_False by done. rewrite decide_False by lia. done. }
  assert (Hwf' : wf (run_calls s0 (cs ++ [c]))).
  { unfold run_calls. rewrite foldl_app. simpl. by apply run_call_wf. }
  split; [done|]. split; [done|]. split.
  - destruct (cache (run_calls s0 (cs ++ [c])) !! r0) as [e|] eqn:He; [|done].
    exfalso.
    assert (Hin : r0 ∈ rs ++ [rN])
      by (rewrite <- Hrows'; apply (wf_rows _ Hwf'); eauto).
    pose proof (wf_nodup _ Hwf) as Hnd. rewrite Hrows in Hnd.
    apply NoDup_cons in Hnd as [Hnotin _].
    apply elem_of_app in Hin as [Hin|Hin%list_elem_of_singleton]; [done|].
    apply HrN. subst. apply elem_of_cons. by left.
  - intros r Hr. apply (wf_rows _ Hwf'). by rewrite Hrows'.
Qed.

Lemma eviction_is_fifo_witness :
  cacheRows (run_calls (blank_8x3 2)
               ([CallGet 0 0; CallSet 1 1 1; CallGet 3 0] ++ [CallGet 0 2]))
  = [1; 2]
  ∧ cache (run_calls (blank_8x3 2)
             ([CallGet 0 0; CallSet 1 1 1; CallGet 3 0] ++ [CallGet 0 2])) !! 0
    = None.
Proof.
  destruct (eviction_is_fifo (Options 8 3 (Some 2)) 2 (blank_8x3 2)
              [CallGet 0 0; CallSet 1 1 1; CallGet 3 0] (CallGet 0 2)
              0 [1] 2 blank_8x3_2) as (_ & Hrows & Hgone & _);
    [reflexivity | lia | reflexivity | reflexivity | reflexivity
    | reflexivity | |].
  - intros [Heq|[Heq|Hin]%elem_of_cons]%elem_of_cons;
      [discriminate | discriminate | by apply not_elem_of_nil in Hin].
  - split; [exact Hrows | exact Hgone].
Defined.

(** * Further properties of the program *)

(** ** The codec on any input *)

Lemma fill_run_snd bitrow biti n v :
  (fill_run bitrow biti n v).2 = (biti + n)%nat.
Proof.
  revert bitrow biti. induction n as [|n IH]; intros; simpl; [lia|].
  rewrite IH. lia.
Qed.

(** A run overwrites the positions it covers that are inside the array,
    and nothing else. *)
Lemma fill_run_lookup bitrow biti n v i :
  (fill_run bitrow biti n v).1 !! i
  = if decide (biti ≤ i < biti + n)%nat then (λ _, v) <$> bitrow !! i
    else bitrow !! i.
Proof.
  revert bitrow biti. induction n as [|n IH]; intros bitrow biti; simpl.
  - rewrite decide_False by lia. done.
  - rewrite IH. destruct (decide (i = biti)) as [->|Hne].
    + rewrite decide_False by lia. rewrite decide_True by lia.
      destruct (decide (biti < length bitrow)%nat).
      * rewrite list_lookup_insert_eq by done.
        by destruct (lookup_lt_is_Some_2 bitrow biti) as [x ->].
      * rewrite list_insert_ge by lia.
        by rewrite lookup_ge_None_2 by lia.
    + rewrite list_lookup_insert_ne by done.
      destruct (decide (S biti ≤ i < S biti + n)%nat);
        [rewrite decide_True by lia | rewrite decide_False by lia]; done.
Qed.

Lemma rlcDecode_loop_lookup rlc : ∀ bitrow biti i,
  rlcDecode_loop rlc bitrow biti !! i
  = if decide (biti ≤ i < biti + length (runs 0 rlc))%nat
    then bitrow !! i ≫= λ _, runs 0 rlc !! (i - biti)%nat
    else bitrow !! i.
Proof.
  induction rlc as [rlc IH] using (induction_ltof1 _ (@length Z)).
  unfold ltof in IH. intros bitrow biti i.
  destruct rlc as [|end0 [|end1 rest]]; cbn [rlcDecode_loop runs].
  - simpl. rewrite decide_False by lia. done.
  - rewrite app_nil_r, length_replicate.
    destruct (fill_run _ _ _ _) as [b0 i0] eqn:E0.
    change b0 with (b0, i0).1. rewrite <- E0, fill_run_lookup.
    case_decide; [|done].
    destruct (bitrow !! i); [simpl|done].
    by rewrite lookup_replicate_2 by lia.
  - destruct (fill_run bitrow _ _ _) as [b0 i0] eqn:E0.
    destruct (fill_run b0 _ _ _) as [b1 i1] eqn:E1.
    assert (Hi0 : i0 = (biti + Z.to_nat end0)%nat).
    { change i0 with (b0, i0).2. rewrite <- E0. apply fill_run_snd. }
    assert (Hi1 : i1 = (i0 + Z.to_nat end1)%nat).
    { change i1 with (b1, i1).2. rewrite <- E1. apply fill_run_snd. }
    assert (Hb0 : b0 !! i = (fill_run bitrow biti (Z.to_nat end0)
                               rlcEvenRunValue).1 !! i) by (by rewrite E0).
    assert (Hb1 : b1 !! i = (fill_run b0 i0 (Z.to_nat end1)
                               rlcOddRunValue).1 !! i) by (by rewrite E1).
    rewrite fill_run_lookup in Hb0, Hb1.
    rewrite IH by (simpl; lia). rewrite Hb1, Hb0.
    replace (1 - (1 - 0)) with 0 by lia. replace (1 - 0) with 1 by lia.
    rewrite !length_app, !length_replicate. subst i0 i1.
    set (n0 := Z.to_nat end0). set (n1 := Z.to_nat end1).
    set (L := length (runs 0 rest)).
    unfold rlcEvenRunValue, rlcOddRunValue.
    destruct (bitrow !! i) as [x|]; simpl;
      [|repeat case_decide; done].
    destruct (decide (biti ≤ i < biti + n0)%nat).
    { rewrite decide_False by lia. rewrite decide_False by lia.
      rewrite decide_True by lia. simpl.
      rewrite lookup_app_l by (rewrite length_replicate; lia).
      by rewrite lookup_replicate_2 by lia. }
    destruct (decide (biti + n0 ≤ i < biti + n0 + n1)%nat).
    { rewrite decide_False by lia. rewrite decide_True by lia. simpl.
      rewrite lookup_app_r by (rewrite length_replicate; lia).
      rewrite length_replicate.
      rewrite lookup_app_l by (rewrite length_replicate; lia).
      by rewrite lookup_replicate_2 by lia. }
    destruct (decide (biti + n0 + n1 ≤ i < biti + n0 + n1 + L)%nat).
    { rewrite decide_True by lia. simpl.
      rewrite lookup_app_r by (rewrite length_replicate; lia).
      rewrite length_replicate.
      rewrite lookup_app_r by (rewrite length_replicate; lia).
      rewrite length_replicate. f_equal. lia. }
    rewrite decide_False by lia. done.
Qed.

(** X1.  Whatever the counts are, [rlcDecode] returns
    the first [width] bits of the runs they stand for, zeros then ones in
    turn, followed by zeros when the runs are too short: counts that go
    past the row are dropped, and a row is never longer or shorter than
    [width]. *)
Theorem rlcDecode_any_counts (width : Z) (rlc : list Z) :
  rlcDecode width rlc
  = take (Z.to_nat width) (runs 0 rlc ++ replicate (Z.to_nat width) 0)
  ∧ length (rlcDecode width rlc) = Z.to_nat width
  ∧ bits (rlcDecode width rlc).
Proof.
  split; [|split; [apply rlcDecode_length | apply rlcDecode_bits]].
  apply list_eq. intros i. unfold rlcDecode, BitArray.
  rewrite rlcDecode_loop_lookup. simpl.
  set (W := Z.to_nat width). set (R := runs 0 rlc).
  destruct (decide (i < W)%nat) as [Hlt|Hge].
  - rewrite lookup_take_lt by done. rewrite lookup_replicate_2 by done.
    case_decide.
    + simpl. rewrite lookup_app_l by lia. f_equal. lia.
    + rewrite lookup_app_r by lia. by rewrite lookup_replicate_2 by lia.
  - rewrite lookup_take_ge by lia.
    rewrite (proj1 (lookup_replicate_None W 0 i)) by lia.
    by case_decide.
Qed.

Lemma sum_counts_snoc rlc c : sum_counts (rlc ++ [c]) = sum_counts rlc + c.
Proof.
  unfold sum_counts. induction rlc as [|d rlc IH]; simpl; [lia|].
  rewrite IH. lia.
Qed.

Lemma RlcArray_sum_counts m rlc :
  m ≤ 65535 → Forall (count_ok m) rlc → RlcArray rlc = rlc.
Proof.
  intros Hm. unfold RlcArray. induction 1 as [|c rlc Hc _ IH]; [done|].
  rewrite fmap_cons, IH. f_equal.
  unfold count_ok in Hc. apply Z.mod_small. lia.
Qed.

Lemma rlcEncode_loop_sum m bitrow fuel : ∀ rowi rlc,
  1 ≤ m ≤ 65535 →
  sum_counts rlc = Z.of_nat rowi →
  sum_counts (rlcEncode_loop m bitrow fuel rowi rlc).2
  = Z.of_nat (rlcEncode_loop m bitrow fuel rowi rlc).1.
Proof.
  induction fuel as [|fuel IH]; intros rowi rlc Hm Hsum; simpl; [done|].
  destruct (decide (rowi < length bitrow)%nat); [|done].
  destruct (findRunEnd_spec m Hm bitrow rowi) as (Hr & _).
  apply IH; [done|]. case_decide.
  - rewrite !sum_counts_snoc. lia.
  - rewrite sum_counts_snoc. lia.
Qed.

(** X2.  For every row, of bits or not, the counts that
    [rlcEncode] returns add up to the length of the row. *)
Theorem rlcEncode_counts_sum (row : list Z) :
  sum_counts (rlcEncode 65000 row) = Z.of_nat (length row).
Proof.
  assert (Hm : 1 ≤ 65000 ≤ 65535) by lia.
  pose proof (rlcEncode_counts 65000 Hm row) as Hcounts.
  unfold rlcEncode in *.
  set (rlc0 := if decide (row !! 0%nat = Some rlcEvenRunValue)
               then [] else [0]) in *.
  assert (H0 : sum_counts rlc0 = Z.of_nat 0).
  { unfold rlc0. by case_decide. }
  pose proof (rlcEncode_loop_sum 65000 row (length row) 0%nat rlc0 Hm H0)
    as Hsum.
  pose proof (rlcEncode_loop_exit 65000 Hm row (length row) 0%nat rlc0)
    as Hexit.
  assert (Hc0 : Forall (count_ok 65000) rlc0).
  { unfold rlc0. case_decide; [done|].
    apply List.Forall_cons; [|done]. unfold count_ok. lia. }
  pose proof (rlcEncode_loop_counts 65000 Hm row (length row) 0%nat rlc0 Hc0)
    as Hc.
  destruct (rlcEncode_loop _ _ _ _ _) as [rowi rlc]. simpl in *.
  rewrite Hexit in Hsum by lia.
  destruct (decide (Z.of_nat rowi mod 2 = 0)).
  - rewrite (RlcArray_sum_counts 65000); [|lia|].
    + rewrite sum_counts_snoc. lia.
    + apply Forall_app. split; [done|].
      apply List.Forall_cons; [|done]. unfold count_ok. lia.
  - by rewrite (RlcArray_sum_counts 65000) by (done || lia).
Qed.

(** X3.  From a position inside the row, [findRunEnd] returns
    a position after [start], inside the row or at its end and at most
    [maxRunLength] (65000) further; every element from [start] up to it is
    the one at [start]; and it stops short of [maxRunLength] only at the
    end of the row or at a different element. *)
Theorem findRunEnd_contract (row : list Z) (start : nat) :
  (start < length row)%nat →
  let end_ := findRunEnd 65000 row start in
  (start < end_ ≤ length row)%nat
  ∧ (end_ ≤ start + Z.to_nat 65000)%nat
  ∧ (∀ i, (start ≤ i < end_)%nat → row !! i = row !! start)
  ∧ (end_ = (start + Z.to_nat 65000)%nat ∨ end_ = length row
     ∨ (∃ b, row !! end_ = Some b ∧ row !! start ≠ Some b)).
Proof.
  intros Hlt. assert (Hm : 1 ≤ 65000 ≤ 65535) by lia.
  pose proof (findRunEnd_inside 65000 Hm row start Hlt) as Hin.
  destruct (findRunEnd_spec 65000 Hm row start) as (Hr & Hrun & Hstop).
  simpl. split; [lia|]. split; [lia|]. split; [done|].
  destruct Hstop as [Hmax|Hne]; [by left|right].
  destruct (row !! findRunEnd 65000 row start) as [b|] eqn:Hb.
  - right. exists b. split; [done|]. congruence.
  - left. apply lookup_ge_None in Hb. lia.
Qed.

Lemma findRunEnd_contract_witness :
  findRunEnd 65000 [0;0;0;1;0;0;0;0] 0 = 3%nat
  ∧ Z.of_nat (findRunEnd 65000 [0;0;0;1;0;0;0;0] 0) ≤ 8.
Proof.
  split; [vm_compute; reflexivity|].
  pose proof (findRunEnd_contract [0;0;0;1;0;0;0;0] 0) as H.
  simpl length in H. destruct H as ([_ Hle] & _); [lia|]. lia.
Defined.

(** ** The constructor *)

Lemma init_rows_store bitrow todo : ∀ i s,
  cache s = ∅ → 0 ≤ i → i + Z.of_nat todo ≤ height s →
  ∃ st, init_rows bitrow todo i s = (inr tt, set_store st s)
        ∧ ∀ n, st !! n
               = if decide (i ≤ n < i + Z.of_nat todo)
                 then Some (rlcEncode (maxRunLength s) bitrow)
                 else store s !! n.
Proof.
  induction todo as [|todo IH]; intros i s Hc Hi Hh.
  - exists (store s). split; [by destruct s|].
    intros n. rewrite decide_False by lia. done.
  - cbn [init_rows]. unfold setRow. rewrite decide_False by lia.
    cbn [cache set_store]. rewrite Hc, lookup_empty.
    set (s1 := set_store _ s).
    destruct (IH (i + 1) s1) as (st & -> & Hst); [done|lia|simpl; lia|].
    exists st. split; [done|]. intros n. rewrite Hst. simpl.
    destruct (decide (n = i)) as [->|Hne].
    + rewrite decide_False by lia. rewrite decide_True by lia.
      by rewrite lookup_insert_eq.
    + rewrite lookup_insert_ne by done.
      destruct (decide (i + 1 ≤ n < i + 1 + Z.of_nat todo));
        [rewrite decide_True by lia | rewrite decide_False by lia]; done.
Qed.

Lemma RlcBitmap_store o s :
  RlcBitmap o = inr s →
  ∀ n, store s !! n
       = if decide (0 ≤ n < height s)
         then Some (rlcEncode 65000 (BitArray (width s)))
         else None.
Proof.
  unfold RlcBitmap. case_decide as Hpos; [done|].
  set (s0 := Bitmap _ _ _ _ _ _ _).
  destruct (init_rows_store (BitArray (width s0)) (Z.to_nat (height s0)) 0 s0)
    as (st & -> & Hst); [done|done|simpl; lia|].
  intros [= <-] n. simpl. rewrite Hst. simpl.
  destruct (decide (0 ≤ n < 0 + Z.of_nat (Z.to_nat (opt_height o))));
    [rewrite decide_True by lia | rewrite decide_False by lia]; done.
Qed.

(** X4.  The constructor throws its 'width, height required' error
    exactly when [height] or [width] is not positive; and whatever the
    sizes, it throws neither the row-out-of-bounds error nor a [TypeError]:
    the loop that fills the store stays inside the bounds of [setRow].
    (The [RangeError] of the runtime, for an array too large to be made,
    is not an error of the program and is not modelled.) *)
Theorem RlcBitmap_throws_iff (o : options) :
  (RlcBitmap o = inl WidthHeightRequired
   ↔ opt_height o ≤ 0 ∨ opt_width o ≤ 0)
  ∧ (∀ n, RlcBitmap o ≠ inl (RowOutOfBounds n))
  ∧ RlcBitmap o ≠ inl TypeError.
Proof.
  unfold RlcBitmap. case_decide as Hpos.
  - split; [split; [intros _; lia|done]|]. split; [|done].
    intros n. discriminate.
  - set (s0 := Bitmap _ _ _ _ _ _ _).
    destruct (init_rows_store (BitArray (width s0)) (Z.to_nat (height s0)) 0 s0)
      as (st & -> & _); [done|done|simpl; lia|].
    split; [split; [done|intros; lia]|]. split; [|done].
    intros n. discriminate.
Qed.

Lemma RlcBitmap_throws_iff_witness :
  RlcBitmap (Options 8 0 None) = inl WidthHeightRequired.
Proof.
  apply (proj1 (RlcBitmap_throws_iff (Options 8 0 None))).
  left. simpl. lia.
Defined.

Lemma bit_rows_empty s : cache s = ∅ → bit_rows s.
Proof. intros Hc n e. by rewrite Hc, lookup_empty. Qed.

(** X5.  A new bitmap has an empty cache and holds
    the rows [0] to [height - 1], each of [width] zeros, and no other row;
    when its cache can hold a row, [get] returns 0 at every column below
    [width] of every row below [height]. *)
Theorem new_bitmap_is_blank (o : options) (s : bitmap) :
  RlcBitmap o = inr s →
  cache s = ∅ ∧ cacheRows s = []
  ∧ (∀ y, row_of s y
          = if decide (0 ≤ y < height s)
            then Some (replicate (Z.to_nat (width s)) 0)
            else None)
  ∧ ((1 <= cacheMaxItems s)%Q →
     ∀ x y, 0 ≤ x < width s → 0 ≤ y < height s →
            (get x y s).1 = inr (Some 0)).
Proof.
  intros Hnew.
  destruct (RlcBitmap_inr o s Hnew) as (_ & _ & _ & _ & _ & Hl & Hc & Hr & _).
  pose proof (RlcBitmap_store o s Hnew) as Hst.
  pose proof (RlcBitmap_wf o s Hnew) as Hwf.
  assert (Hrow : ∀ y, row_of s y
                      = if decide (0 ≤ y < height s)
                        then Some (replicate (Z.to_nat (width s)) 0)
                        else None).
  { intros y. unfold row_of. rewrite Hc, lookup_empty, Hst.
    case_decide; [simpl|done]. f_equal.
    apply rlc_round_trip; [lia| |apply length_replicate].
    apply Forall_replicate. by left. }
  split; [done|]. split; [done|]. split; [done|].
  intros Hroom x y Hx Hy.
  destruct (getRow_ok y s Hwf Hy Hroom) as [row Hget].
  assert (Hv : (get x y s).1 = inr (typed_get row x)).
  { unfold get. destruct (getRow y s) as [[err|row'] s1]; simpl in *;
      congruence. }
  rewrite Hv. f_equal.
  rewrite (get_inr x y s _ Hwf (bit_rows_empty s Hc) Hv).
  unfold bit_of. rewrite Hrow, decide_True by done. simpl.
  unfold typed_get. rewrite decide_True by lia.
  apply lookup_replicate_2. lia.
Qed.

Lemma new_bitmap_is_blank_witness :
  row_of (blank_8x3 1) 2 = Some [0;0;0;0;0;0;0;0]
  ∧ (get 7 2 (blank_8x3 1)).1 = inr (Some 0).
Proof.
  destruct (new_bitmap_is_blank (Options 8 3 (Some 1)) (blank_8x3 1)
              blank_8x3_1) as (_ & _ & Hrow & Hget).
  split.
  - apply (Hrow 2).
  - apply Hget; [discriminate | split; [discriminate|reflexivity]
                 | split; [discriminate|reflexivity]].
Defined.

(** ** The rows of the store *)

Lemma evicted_store_rows s rowId rest row :
  store_rows s → cache s !! rowId = Some row →
  store_rows (evicted s rowId rest row).
Proof.
  intros [Hdom Hcached] Hrow.
  destruct (evicted_fields s rowId rest row) as (_ & Hc & (_ & Hh & _)).
  split.
  - intros n. rewrite evicted_store, Hh. case_decide as H; [|apply Hdom].
    destruct H as [-> _]. intros _. apply Hdom. by eapply Hcached.
  - intros n e. rewrite Hc. intros [_ He]%lookup_delete_Some.
    rewrite evicted_store. case_decide; [done|]. by eapply Hcached.
Qed.

Lemma freeCacheSpace_store_rows nitems s :
  wf s → store_rows s → store_rows (freeCacheSpace nitems s).2.
Proof.
  intros Hwf Hst.
  apply (freeCacheSpace_invariant store_rows nitems s); [|done|done].
  intros s' rowId rest row _ Hs _ Hrow. by apply evicted_store_rows.
Qed.

Lemma fetched_store_rows s n rlc :
  store_rows s → store s !! n = Some rlc → store_rows (fetched s n rlc).
Proof.
  intros [Hdom Hcached] Hrlc. split; simpl; [done|].
  intros k e [[<- <-]|[Hne He]]%lookup_insert_Some; [eauto|].
  by eapply Hcached.
Qed.

Lemma getRow_store_rows n s :
  wf s → store_rows s → store_rows (getRow n s).2.
Proof.
  intros Hwf Hst. pose proof (freeCacheSpace_store_rows 1 s Hwf Hst).
  destruct (getRow_cases n s Hwf); simpl; try done.
  by apply fetched_store_rows.
Qed.

Lemma written_store_rows s x y onOff e :
  store_rows s → cache s !! y = Some e → store_rows (written s x y onOff e).
Proof.
  intros [Hdom Hcached] He. split; simpl; [done|].
  intros k e' [[<- <-]|[Hne He']]%lookup_insert_Some; by eapply Hcached.
Qed.

Lemma set_store_rows x y onOff s :
  wf s → store_rows s → store_rows (set x y onOff s).2.
Proof.
  intros Hwf Hst. pose proof (getRow_store_rows y s Hwf Hst) as Hst1.
  destruct (set_cases x y onOff s Hwf) as [(err & _ & ->)|(e & _ & _ & He & ->)];
    simpl; [done|]. by apply written_store_rows.
Qed.

Lemma flushed_store_rows s i row :
  store_rows s → cache s !! i = Some row → store_rows (flushed s i row).
Proof.
  intros [Hdom Hcached] Hrow.
  destruct (flushed_fields s i row) as (Hc & _ & (_ & Hh & _)).
  split.
  - intros n. rewrite flushed_store, Hh. case_decide as H; [|apply Hdom].
    destruct H as [-> _]. intros _. apply Hdom. by eapply Hcached.
  - intros n e. rewrite Hc. intros He.
    rewrite flushed_store. case_decide; [done|]. by eapply Hcached.
Qed.

Lemma run_call_store_rows s c :
  wf s → store_rows s → store_rows (run_call s c).
Proof.
  intros Hwf Hst. destruct c as [x y|x y onOff|]; simpl.
  - rewrite get_state. by apply getRow_store_rows.
  - by apply set_store_rows.
  - apply (flushChanges_invariant store_rows); [|done].
    intros. by apply flushed_store_rows.
Qed.

Lemma run_calls_store_rows cs : ∀ s,
  wf s → store_rows s → store_rows (run_calls s cs).
Proof.
  induction cs as [|c cs IH]; intros s Hwf Hst; simpl; [done|].
  apply IH; [by apply run_call_wf | by apply run_call_store_rows].
Qed.

Lemma reachable_store_rows s : reachable s → store_rows s ∧ 0 < height s.
Proof.
  intros (o & s0 & cs & Hnew & <-).
  pose proof (RlcBitmap_wf o s0 Hnew) as Hwf.
  destruct (RlcBitmap_inr o s0 Hnew) as (_ & Hpos & _ & Hh & _ & _ & Hc & _).
  destruct (run_calls_wf cs s0 Hwf) as [_ (_ & Hh' & _)].
  split; [|lia].
  apply run_calls_store_rows; [done|]. split.
  - intros n. rewrite (RlcBitmap_store o s0 Hnew). by case_decide; [|intros [? ?]].
  - intros n e. by rewrite Hc, lookup_empty.
Qed.

(** X6.  The bounds test lets row number [height] through,
    but on a bitmap used through [get], [set] and [flushChanges] the store
    has no such row: [get] and [set] at row [height] throw a [TypeError],
    whatever the column and the value. *)
Theorem row_height_throws (s : bitmap) (x onOff : Z) :
  reachable s →
  (get x (height s) s).1 = inl TypeError
  ∧ (set x (height s) onOff s).1 = inl TypeError.
Proof.
  intros Hreach. pose proof (reachable_wf s Hreach) as Hwf.
  destruct (reachable_store_rows s Hreach) as [[Hdom Hcached] Hpos].
  assert (Hrow : (getRow (height s) s).1 = inl TypeError).
  { destruct (getRow_cases (height s) s Hwf) as [| e ? He | | | rlc ? ? ? Hrlc];
      simpl; try done.
    - lia.
    - assert (0 ≤ height s < height s) by (apply Hdom; by eapply Hcached). lia.
    - assert (0 ≤ height s < height s) by (apply Hdom; eauto). lia. }
  split.
  - unfold get. by destruct (getRow (height s) s) as [[err|row] s1];
      simpl in *; simplify_eq.
  - destruct (set_cases x (height s) onOff s Hwf)
      as [(err & Herr & ->)|(e & _ & Hok & _)].
    + rewrite Herr in Hrow. simpl in *. by simplify_eq.
    + rewrite Hok in Hrow. discriminate.
Qed.

Lemma row_height_throws_witness :
  (get 0 3 (run_calls (blank_8x3 1) [CallSet 0 0 1])).1 = inl TypeError.
Proof.
  apply (row_height_throws (run_calls (blank_8x3 1) [CallSet 0 0 1]) 0 0).
  exists (Options 8 3 (Some 1)), (blank_8x3 1), [CallSet 0 0 1].
  split; [apply blank_8x3_1|reflexivity].
Defined.

(** X7.  When [get(x, y)] has returned, the same call made
    again returns the same value from the cache and changes nothing in the
    bitmap. *)
Theorem get_again (s : bitmap) (x y : Z) (v : option Z) (s1 : bitmap) :
  reachable s → get x y s = (inr v, s1) → get x y s1 = (inr v, s1).
Proof.
  intros Hwf%reachable_wf. unfold get.
  pose proof (getRow_shape y s Hwf) as (_ & Hh & _).
  destruct (getRow y s) as [[err|row] s1'] eqn:Hget; [done|].
  intros [= <- <-]. simpl in Hh.
  destruct (getRow_inr y s row s1' Hwf Hget) as (Hy & e & He & <-).
  unfold getRow. rewrite decide_False by lia. by rewrite He.
Qed.

Lemma get_again_witness :
  ∃ s1, get 3 2 (blank_8x3 1) = (inr (Some 0), s1)
        ∧ get 3 2 s1 = (inr (Some 0), s1).
Proof.
  eexists. split; [vm_compute; reflexivity|].
  eapply (get_again (blank_8x3 1) 3 2).
  - exists (Options 8 3 (Some 1)), (blank_8x3 1), [].
    split; [apply blank_8x3_1|reflexivity].
  - vm_compute. reflexivity.
Defined.

(** ** [freeCacheSpace] as a method of its own *)

Lemma freeCacheSpace_gone nitems s :
  wf s →
  ∃ gone, cacheRows s = gone ++ cacheRows (freeCacheSpace nitems s).2
          ∧ ∀ n, cache (freeCacheSpace nitems s).2 !! n
                 = if decide (n ∈ gone) then None else cache s !! n.
Proof.
  intros Hwf.
  apply (freeCacheSpace_invariant
           (λ s', ∃ gone, cacheRows s = gone ++ cacheRows s'
                          ∧ ∀ n, cache s' !! n
                                 = if decide (n ∈ gone) then None
                                   else cache s !! n) nitems s); [|done|].
  - intros s' rowId rest row _ (gone & Hrows & Hcache) Hrows' _.
    destruct (evicted_fields s' rowId rest row) as (-> & -> & _).
    exists (gone ++ [rowId]). split.
    + rewrite Hrows, Hrows', <- app_assoc. done.
    + intros n. destruct (decide (n = rowId)) as [->|Hne].
      * rewrite lookup_delete_eq, decide_True; [done|].
        apply elem_of_app. right. by apply list_elem_of_singleton.
      * rewrite lookup_delete_ne by done. rewrite Hcache.
        destruct (decide (n ∈ gone)) as [Hin|Hnotin].
        -- rewrite decide_True; [done|]. apply elem_of_app. by left.
        -- rewrite decide_False; [done|].
           intros [?|?%list_elem_of_singleton]%elem_of_app; done.
  - exists []. split; [done|]. intros n. rewrite decide_False; [done|].
    apply not_elem_of_nil.
Qed.

Lemma freeCacheSpace_thrown nitems s :
  wf s → (freeCacheSpace nitems s).1 = inl TypeError →
  cacheRows (freeCacheSpace nitems s).2 = [].
Proof.
  unfold freeCacheSpace.
  remember (cacheRows s) as rows eqn:Hrows. symmetry in Hrows.
  revert s Hrows. induction rows as [|rowId rest IH]; intros s Hrows Hwf.
  - simpl. by destruct (Qlt_le_dec _ _).
  - rewrite freeCacheSpace_loop_cons.
    destruct (Qlt_le_dec _ _) as [Hlt|Hle]; [|done].
    assert (Hin : is_Some (cache s !! rowId)).
    { apply (wf_rows s Hwf). rewrite Hrows. apply elem_of_cons. by left. }
    destruct Hin as [row Hrow]. rewrite Hrow.
    apply IH; [apply evicted_fields | by apply evicted_wf].
Qed.

(** X8.  On a bitmap used through [get], [set] and
    [flushChanges], [freeCacheSpace(nitems)] throws, a [TypeError], exactly
    when [nitems] is more than [cacheMaxItems], and has then emptied the
    cache.  When it returns there is room for [nitems] more rows.  Either
    way the rows it has taken out are the first rows of the queue, the
    rows that stay keep their place in the queue and their cache entry,
    and, on a bitmap written with bit values, every row reads as
    before. *)
Theorem freeCacheSpace_contract (s : bitmap) (nitems : Z) :
  reachable s →
  ((freeCacheSpace nitems s).1 = inl TypeError
   ↔ (cacheMaxItems s < inject_Z nitems)%Q)
  ∧ ((freeCacheSpace nitems s).1 = inl TypeError →
     cacheRows (freeCacheSpace nitems s).2 = []
     ∧ cache (freeCacheSpace nitems s).2 = ∅)
  ∧ ((freeCacheSpace nitems s).1 = inr tt
     ↔ (inject_Z (Z.of_nat (length (cacheRows (freeCacheSpace nitems s).2))
                  + nitems) <= cacheMaxItems s)%Q)
  ∧ (∃ gone, cacheRows s = gone ++ cacheRows (freeCacheSpace nitems s).2
             ∧ ∀ n, cache (freeCacheSpace nitems s).2 !! n
                    = if decide (n ∈ gone) then None else cache s !! n)
  ∧ (bit_reachable s →
     ∀ n, row_of (freeCacheSpace nitems s).2 n = row_of s n).
Proof.
  intros Hwf%reachable_wf.
  pose proof (freeCacheSpace_wf nitems s Hwf) as Hwf'.
  pose proof (freeCacheSpace_thrown nitems s Hwf) as Hthrown.
  assert (Hnot : ∀ k : nat,
            (inject_Z (Z.of_nat k + nitems) <= cacheMaxItems s)%Q →
            (cacheMaxItems s < inject_Z nitems)%Q → False).
  { intros k Hle Hlt. apply (Qlt_not_le _ _ Hlt).
    eapply Qle_trans; [|exact Hle]. rewrite <- Zle_Qle. lia. }
  split; [|split; [|split; [|split]]].
  - destruct (freeCacheSpace_result nitems s Hwf) as [[Hr Hroom]|[Hr Hlt]].
    + rewrite Hr. split; [done|]. intros Hlt. by destruct (Hnot _ Hroom Hlt).
    + by rewrite Hr.
  - intros Hr. split; [by apply Hthrown|].
    apply map_empty. intros n.
    destruct (cache _ !! n) as [e|] eqn:He; [|done].
    assert (Hin : n ∈ cacheRows (freeCacheSpace nitems s).2)
      by (apply (wf_rows _ Hwf'); eauto).
    rewrite (Hthrown Hr) in Hin. by apply not_elem_of_nil in Hin.
  - destruct (freeCacheSpace_result nitems s Hwf) as [[Hr Hroom]|[Hr Hlt]].
    + by rewrite Hr.
    + rewrite Hr. split; [done|]. intros Hroom.
      by destruct (Hnot _ Hroom Hlt).
  - by apply freeCacheSpace_gone.
  - intros Hbit%bit_reachable_bit_rows n. by apply freeCacheSpace_row_of.
Qed.

Lemma freeCacheSpace_contract_witness :
  (freeCacheSpace 2 (run_calls (blank_8x3 2)
                       [CallSet 0 0 1; CallGet 0 1])).1 = inr tt
  ∧ cacheRows (freeCacheSpace 2 (run_calls (blank_8x3 2)
                                   [CallSet 0 0 1; CallGet 0 1])).2 = [].
Proof.
  assert (Hreach : reachable (run_calls (blank_8x3 2)
                                [CallSet 0 0 1; CallGet 0 1])).
  { exists (Options 8 3 (Some 2)), (blank_8x3 2), [CallSet 0 0 1; CallGet 0 1].
    split; [apply blank_8x3_2|reflexivity]. }
  pose proof (freeCacheSpace_contract _ 2 Hreach) as (_ & _ & Hret & _).
  split; [|vm_compute; reflexivity].
  apply Hret. vm_compute. discriminate.
Defined.

(** ** What calls never change *)

(** X9.  On a bitmap written with bit values: [get] and
    [flushChanges] leave every row of the bitmap as it reads, whether they
    return or throw and whatever they evict; [set(x, y, v)] leaves every
    bit but the one at [(x, y)]; and a [set] that throws leaves every
    row. *)
Theorem calls_keep_bits (s : bitmap) :
  bit_reachable s →
  (∀ x y n, row_of (get x y s).2 n = row_of s n)
  ∧ (∀ n, row_of (flushChanges s).2 n = row_of s n)
  ∧ (∀ x y v x' y', ¬ (x' = x ∧ y' = y) →
       bit_of (set x y v s).2 x' y' = bit_of s x' y')
  ∧ (∀ x y v err s1 n, set x y v s = (inl err, s1) → row_of s1 n = row_of s n).
Proof.
  intros Hreach.
  pose proof (bit_reachable_bit_rows s Hreach) as Hbit.
  pose proof (reachable_wf s (bit_reachable_reachable s Hreach)) as Hwf.
  split; [|split; [|split]].
  - intros x y n. rewrite get_state. by apply getRow_row_of.
  - intros n. by apply flushChanges_row_of.
  - intros x y v x' y' Hne.
    apply (run_call_bit_of s (CallSet x y v) x' y' Hwf Hbit).
    simpl. apply bool_decide_eq_false. intros [-> ->]. by apply Hne.
  - intros x y v err s1 n Hset. by eapply set_failed_row_of.
Qed.

Lemma calls_keep_bits_witness :
  row_of (get 0 1 (run_calls (blank_8x3 1) [CallSet 0 0 1])).2 0
  = Some [1;0;0;0;0;0;0;0].
Proof.
  destruct (calls_keep_bits (run_calls (blank_8x3 1) [CallSet 0 0 1])
              (blank_8x3_1_reachable [CallSet 0 0 1] eq_refl)) as (Hget & _).
  rewrite Hget. vm_compute. reflexivity.
Defined.

(** ** [flushChanges]: when it returns *)

Lemma flushChanges_loop_spec todo : ∀ i s,
  let r := flushChanges_loop todo i s in
  (r.1 = inr tt ∨ r.1 = inl TypeError)
  ∧ (r.1 = inr tt
     ↔ ∀ j, i ≤ j < i + Z.of_nat todo → is_Some (cache s !! j))
  ∧ (r.1 = inr tt →
     ∀ j e, i ≤ j < i + Z.of_nat todo → cache s !! j = Some e →
            modified e = true →
            store r.2 !! j = Some (rlcEncode (maxRunLength s) (data e)))
  ∧ (∀ j, j < i → store r.2 !! j = store s !! j).
Proof.
  induction todo as [|todo IH]; intros i s; cbn [flushChanges_loop].
  - simpl. split; [by left|].
    split; [split; [intros _ j ?; lia | done]|].
    split; [intros _ j e ?; lia | done].
  - destruct (cache s !! i) as [row|] eqn:Hrow.
    + fold (flushed s i row).
      destruct (flushed_fields s i row) as (Hc & _ & (_ & _ & _ & Hl)).
      destruct (IH (i + 1) (flushed s i row)) as (Hres & Hiff & Hwritten & Hleft).
      rewrite Hc in Hiff, Hwritten. rewrite Hl in Hwritten.
      split; [done|]. split; [|split].
      * rewrite Hiff. split.
        -- intros Hall j Hj. destruct (decide (j = i)) as [->|]; [eauto|].
           apply Hall. lia.
        -- intros Hall j Hj. apply Hall. lia.
      * intros Hr j e Hj He Hmod. destruct (decide (j = i)) as [->|Hne].
        -- rewrite Hleft by lia. rewrite flushed_store.
           assert (row = e) as -> by congruence.
           by rewrite decide_True.
        -- apply Hwritten; [done|lia|done|done].
      * intros j Hj. rewrite Hleft by lia. rewrite flushed_store.
        rewrite decide_False; [done|]. intros [-> _]. lia.
    + simpl. split; [by right|]. split; [|done]. split; [done|].
      intros Hall. destruct (Hall i) as [? ?]; [lia|congruence].
Qed.

(** When the rows [0] to [k - 1] are among the [k] rows of the queue, they
    are all of them. *)
Lemma queue_is_initial_segment (rows : list Z) :
  NoDup rows →
  (∀ j, 0 ≤ j < Z.of_nat (length rows) → j ∈ rows) →
  ∀ n, n ∈ rows → 0 ≤ n < Z.of_nat (length rows).
Proof.
  intros Hnd Hall n Hn.
  assert (Hsub : seqZ 0 (Z.of_nat (length rows)) ⊆+ rows).
  { apply NoDup_submseteq; [apply NoDup_seqZ|].
    intros j Hj%elem_of_seqZ. apply Hall. lia. }
  apply submseteq_length_Permutation in Hsub;
    [|rewrite length_seqZ; lia].
  rewrite <- Hsub in Hn. apply elem_of_seqZ in Hn. lia.
Qed.

(** X10.  With [k] rows in the cache, [flushChanges]
    looks the cache up at [0], ..., [k - 1]: on a bitmap used through
    [get], [set] and [flushChanges] it returns exactly when each of these
    is a cached row, which is when the cached rows are the rows [0] to
    [k - 1], and it has then written back every modified row of the cache;
    otherwise it throws a [TypeError]. *)
Theorem flushChanges_returns_iff (s : bitmap) :
  reachable s →
  ((flushChanges s).1 = inr tt ∨ (flushChanges s).1 = inl TypeError)
  ∧ ((flushChanges s).1 = inr tt
     ↔ ∀ j, 0 ≤ j < Z.of_nat (length (cacheRows s)) →
            is_Some (cache s !! j))
  ∧ ((flushChanges s).1 = inr tt →
     ∀ n e, cache s !! n = Some e →
            0 ≤ n < Z.of_nat (length (cacheRows s))
            ∧ (modified e = true →
               store (flushChanges s).2 !! n
               = Some (rlcEncode (maxRunLength s) (data e)))).
Proof.
  intros Hwf%reachable_wf. unfold flushChanges.
  destruct (flushChanges_loop_spec (length (cacheRows s)) 0 s)
    as (Hres & Hiff & Hwritten & _).
  split; [done|]. split; [by rewrite Hiff|].
  intros Hr n e He.
  assert (Hn : 0 ≤ n < Z.of_nat (length (cacheRows s))).
  { apply (queue_is_initial_segment (cacheRows s)).
    - apply (wf_nodup s Hwf).
    - intros j Hj. apply (wf_rows s Hwf). apply Hiff; [done|lia].
    - apply (wf_rows s Hwf). eauto. }
  split; [done|]. intros Hmod. apply Hwritten; [done|lia|done|done].
Qed.

Lemma flushChanges_returns_iff_witness :
  (flushChanges (run_calls (blank_8x3 2) [CallSet 0 1 1; CallSet 2 0 1])).1
  = inr tt
  ∧ store (flushChanges (run_calls (blank_8x3 2)
                           [CallSet 0 1 1; CallSet 2 0 1])).2 !! 1
    = Some (rlcEncode 65000 [1;0;0;0;0;0;0;0]).
Proof.
  assert (Hreach : reachable (run_calls (blank_8x3 2)
                                [CallSet 0 1 1; CallSet 2 0 1])).
  { exists (Options 8 3 (Some 2)), (blank_8x3 2),
      [CallSet 0 1 1; CallSet 2 0 1].
    split; [apply blank_8x3_2|reflexivity]. }
  destruct (flushChanges_returns_iff _ Hreach) as (_ & Hiff & Hwritten).
  assert (Hr : (flushChanges (run_calls (blank_8x3 2)
                                [CallSet 0 1 1; CallSet 2 0 1])).1 = inr tt).
  { apply Hiff. intros j Hj.
    assert (Hlen : length (cacheRows (run_calls (blank_8x3 2)
                             [CallSet 0 1 1; CallSet 2 0 1])) = 2%nat)
      by (vm_compute; reflexivity).
    rewrite Hlen in Hj.
    assert (Hj' : j = 0 ∨ j = 1) by lia.
    destruct Hj' as [-> | ->]; vm_compute; eauto. }
  split; [exact Hr|].
  apply (Hwritten Hr 1 (Entry 1 true [1;0;0;0;0;0;0;0]));
    vm_compute; reflexivity.
Defined.

(** ** Reading never writes the store *)

Lemma evicted_clean s rowId rest row :
  all_clean s → cache s !! rowId = Some row →
  all_clean (evicted s rowId rest row)
  ∧ store (evicted s rowId rest row) = store s.
Proof.
  intros Hclean Hrow. unfold evicted. rewrite (Hclean rowId row Hrow). simpl.
  split; [|done]. intros n e. simpl.
  intros [_ He]%lookup_delete_Some. by eapply Hclean.
Qed.

Lemma getRow_clean n s :
  wf s → all_clean s →
  all_clean (getRow n s).2 ∧ store (getRow n s).2 = store s.
Proof.
  intros Hwf Hclean.
  assert (Hfree : all_clean (freeCacheSpace 1 s).2
                  ∧ store (freeCacheSpace 1 s).2 = store s).
  { apply (freeCacheSpace_invariant
             (λ s', all_clean s' ∧ store s' = store s) 1 s); [|done|done].
    intros s' rowId rest row _ [Hc Hs] _ Hrow.
    destruct (evicted_clean s' rowId rest row Hc Hrow) as [Hc' Hs'].
    split; [done|congruence]. }
  destruct Hfree as [Hc1 Hs1].
  destruct (getRow_cases n s Hwf); simpl; try done.
  split; [|done]. intros k e. simpl.
  intros [[<- <-]|[Hne He]]%lookup_insert_Some; [done|].
  by eapply Hc1.
Qed.

Lemma flushChanges_clean s :
  all_clean s →
  all_clean (flushChanges s).2 ∧ store (flushChanges s).2 = store s.
Proof.
  intros Hclean.
  apply (flushChanges_invariant (λ s', all_clean s' ∧ store s' = store s));
    [|done].
  intros s' i row [Hc Hs] Hrow. unfold flushed.
  by rewrite (Hc i row Hrow).
Qed.

Lemma run_calls_clean cs : ∀ s,
  wf s → all_clean s → forallb is_read cs = true →
  all_clean (run_calls s cs) ∧ store (run_calls s cs) = store s.
Proof.
  induction cs as [|c cs IH]; intros s Hwf Hclean Hcs; simpl; [done|].
  simpl in Hcs. apply andb_true_iff in Hcs as [Hc Hcs].
  assert (Hstep : all_clean (run_call s c) ∧ store (run_call s c) = store s).
  { destruct c as [x y|x y v|]; simpl; [|done|].
    - rewrite get_state. by apply getRow_clean.
    - by apply flushChanges_clean. }
  destruct Hstep as [Hc1 Hs1].
  destruct (IH (run_call s c)) as [Hc2 Hs2];
    [by apply run_call_wf|done|done|].
  split; [done|congruence].
Qed.

(** X11.  From the constructor on, as long as only [get] and
    [flushChanges] are called, the store stays the one the constructor
    made and no cached row is marked modified: fetching and evicting rows
    re-encodes nothing. *)
Theorem reads_keep_store (o : options) (s0 : bitmap) (cs : list call) :
  RlcBitmap o = inr s0 → forallb is_read cs = true →
  store (run_calls s0 cs) = store s0 ∧ all_clean (run_calls s0 cs).
Proof.
  intros Hnew Hcs.
  destruct (RlcBitmap_inr o s0 Hnew) as (_&_&_&_&_&_& Hc & _).
  destruct (run_calls_clean cs s0) as [Hclean Hs];
    [by eapply RlcBitmap_wf| |done|done].
  intros n e. by rewrite Hc, lookup_empty.
Qed.

Lemma reads_keep_store_witness :
  store (run_calls (blank_8x3 1) [CallGet 0 0; CallGet 3 1; CallFlush;
                                  CallGet 0 2])
  = store (blank_8x3 1).
Proof.
  apply (reads_keep_store (Options 8 3 (Some 1)) (blank_8x3 1)
           [CallGet 0 0; CallGet 3 1; CallFlush; CallGet 0 2] blank_8x3_1).
  reflexivity.
Defined.

(** ** [setRow] *)

Lemma setRow_unfold row n s :
  ¬ (n < 0 ∨ n > height s) →
  setRow row n s
  = (inr tt,
     match cache s !! n with
     | Some e =>
         set_cache (<[n := Entry (rowId e) true row]> (cache s))
           (set_store (<[n := rlcEncode (maxRunLength s) row]> (store s)) s)
     | None =>
         set_store (<[n := rlcEncode (maxRunLength s) row]> (store s)) s
     end).
Proof.
  intros Hn. unfold setRow. rewrite decide_False by done. simpl.
  by destruct (cache s !! n).
Qed.

Lemma setRow_wf row n s :
  wf s → length row = Z.to_nat (width s) → wf (setRow row n s).2.
Proof.
  intros Hwf Hlen. unfold setRow. case_decide; [done|]. simpl.
  destruct (cache s !! n) as [e0|] eqn:He0; simpl.
  - split; simpl.
    + apply (wf_maxRunLength s Hwf).
    + intros k Hk. rewrite lookup_insert_is_Some.
      destruct (decide (n = k)); [by left|right]. split; [done|].
      by apply (wf_store s Hwf).
    + intros k e [[<- <-]|[Hne He]]%lookup_insert_Some; [done|].
      by apply (wf_length s Hwf k).
    + intros k e [[<- <-]|[Hne He]]%lookup_insert_Some Hclean; [done|].
      rewrite lookup_insert_ne by done. by apply (wf_clean s Hwf k).
    + apply (wf_nodup s Hwf).
    + intros k. rewrite lookup_insert_is_Some, (wf_rows s Hwf k).
      destruct (decide (n = k)) as [<-|]; [|naive_solver].
      split; [by left|]. intros _. eauto.
    + apply (wf_size s Hwf).
  - split; simpl.
    + apply (wf_maxRunLength s Hwf).
    + intros k Hk. rewrite lookup_insert_is_Some.
      destruct (decide (n = k)); [by left|right]. split; [done|].
      by apply (wf_store s Hwf).
    + apply (wf_length s Hwf).
    + intros k e He Hclean.
      rewrite lookup_insert_ne by congruence. by apply (wf_clean s Hwf k).
    + apply (wf_nodup s Hwf).
    + apply (wf_rows s Hwf).
    + apply (wf_size s Hwf).
Qed.

(** X12.  On a bitmap used through [get], [set] and [flushChanges],
    whose cache can hold a row: [setRow(row, n)] of a row of [width] bits
    at a row number from [0] to [height], the upper bound included,
    returns; it leaves the queue and every other row as they were; and the
    [getRow(n)] that follows returns [row], from the cache entry when the
    row was cached and from the new counts of the store otherwise.
    Outside [0 .. height] it throws the row-out-of-bounds error and
    changes nothing. *)
Theorem setRow_then_getRow (s : bitmap) (row : list Z) (n : Z) :
  reachable s →
  (n < 0 ∨ n > height s → setRow row n s = (inl (RowOutOfBounds n), s))
  ∧ (0 ≤ n ≤ height s →
     (setRow row n s).1 = inr tt
     ∧ cacheRows (setRow row n s).2 = cacheRows s
     ∧ (∀ k, k ≠ n →
          cache (setRow row n s).2 !! k = cache s !! k
          ∧ store (setRow row n s).2 !! k = store s !! k)
     ∧ (bits row → length row = Z.to_nat (width s) →
        (1 <= cacheMaxItems s)%Q →
        (getRow n (setRow row n s).2).1 = inr row)).
Proof.
  intros Hwf%reachable_wf. split.
  - intros Hn. unfold setRow. by rewrite decide_True.
  - intros Hn. rewrite setRow_unfold by lia. simpl.
    set (st := <[n := rlcEncode (maxRunLength s) row]> (store s)).
    split; [done|]. split; [by destruct (cache s !! n)|]. split.
    + intros k Hk. destruct (cache s !! n) as [e0|]; simpl;
        rewrite ?lookup_insert_ne by done; unfold st;
        by rewrite lookup_insert_ne.
    + intros Hbits Hlen Hroom.
      pose proof (setRow_wf row n s Hwf Hlen) as Hwf1.
      rewrite setRow_unfold in Hwf1 by lia. simpl in Hwf1.
      set (s1 := match cache s !! n with
                 | Some e => set_cache _ _
                 | None => set_store _ s
                 end) in *.
      assert (Hshape : width s1 = width s ∧ height s1 = height s
                       ∧ cacheMaxItems s1 = cacheMaxItems s
                       ∧ store s1 !! n
                         = Some (rlcEncode (maxRunLength s) row)).
      { unfold s1, st. destruct (cache s !! n); simpl;
          by rewrite lookup_insert_eq. }
      destruct Hshape as (Hw & Hh & Hm & Hst).
      destruct (getRow_cases n s1 Hwf1) as [| e ? He | | | rlc ? ? ? Hrlc];
        simpl.
      * lia.
      * f_equal. unfold s1 in He.
        destruct (cache s !! n) as [e0|] eqn:He0; simpl in He.
        -- rewrite lookup_insert_eq in He. by injection He as <-.
        -- congruence.
      * exfalso. rewrite Hm in *. by eapply Qlt_not_le.
      * congruence.
      * f_equal. rewrite Hst in Hrlc. injection Hrlc as <-.
        rewrite Hw.
        apply rlc_round_trip; [apply (wf_maxRunLength s Hwf)|done|done].
Qed.

Lemma setRow_then_getRow_witness :
  (getRow 3 (setRow [1;0;1;1;0;0;0;1] 3 (blank_8x3 1)).2).1
  = inr [1;0;1;1;0;0;0;1].
Proof.
  assert (Hreach : reachable (blank_8x3 1)).
  { exists (Options 8 3 (Some 1)), (blank_8x3 1), [].
    split; [apply blank_8x3_1|reflexivity]. }
  destruct (setRow_then_getRow (blank_8x3 1) [1;0;1;1;0;0;0;1] 3 Hreach)
    as (_ & Hin).
  destruct Hin as (_ & _ & _ & Hget); [split; [discriminate|discriminate]|].
  apply Hget; [bits_of_list | reflexivity | discriminate].
Defined.

(** ** [toString] *)

Lemma store_length_height s :
  (∀ n, is_Some (store s !! n) → n < height s) → store_length s = height s.
Proof.
  unfold store_length.
  apply (map_fold_weak_ind
           (λ len (m : gmap Z (list Z)),
              (∀ n, is_Some (m !! n) → n < height s) → len = height s)).
  - done.
  - intros n rlc m len Hn IH Hdom.
    rewrite IH.
    + assert (n < height s) by (apply Hdom; rewrite lookup_insert_eq; eauto).
      lia.
    + intros k Hk. apply Hdom. rewrite lookup_insert_is_Some.
      destruct (decide (n = k)); [by left|by right].
Qed.

Lemma toString_row_chars bitrow : ∀ str,
  toString_row bitrow str = str ++ row_chars bitrow.
Proof.
  induction bitrow as [|b rest IH]; intros str; simpl.
  - by rewrite app_nil_r.
  - rewrite IH, <- app_assoc. done.
Qed.

Lemma toString_loop_S todo i s str :
  toString_loop (S todo) i s str
  = match row_of s i with
    | None => inl TypeError
    | Some bitrow =>
        toString_loop todo (i + 1) s
          (str ++ row_chars bitrow ++ ["010"%char])
    end.
Proof.
  cbn [toString_loop]. unfold row_of.
  destruct (match cache s !! i with
            | Some e => Some (data e)
            | None => rlcDecode (width s) <$> store s !! i
            end) as [bitrow|]; [|done].
  by rewrite toString_row_chars, <- app_assoc.
Qed.

(** The picture depends on the bitmap only through the rows it holds. *)
Lemma toString_loop_rows todo : ∀ i s s' str,
  (∀ n, row_of s' n = row_of s n) →
  toString_loop todo i s' str = toString_loop todo i s str.
Proof.
  induction todo as [|todo IH]; intros i s s' str Hrows; [done|].
  rewrite !toString_loop_S, Hrows.
  destruct (row_of s i); [|done]. by apply IH.
Qed.

Lemma toString_loop_chars todo : ∀ i s str,
  wf s →
  (∀ k, i ≤ k < i + Z.of_nat todo → is_Some (row_of s k)) →
  ∃ out, toString_loop todo i s str = inr out
    ∧ length out = (length str + todo * S (Z.to_nat (width s)))%nat
    ∧ (∀ j, (j < length str)%nat → out !! j = str !! j)
    ∧ (∀ (d : nat) (x : nat) row,
         (d < todo)%nat → row_of s (i + Z.of_nat d) = Some row →
         (x < Z.to_nat (width s))%nat →
         out !! (length str + d * S (Z.to_nat (width s)) + x)%nat
         = bit_char <$> row !! x)
    ∧ (∀ d : nat, (d < todo)%nat →
         out !! (length str + d * S (Z.to_nat (width s))
                 + Z.to_nat (width s))%nat = Some "010"%char).
Proof.
  induction todo as [|todo IH]; intros i s str Hwf Hrows.
  - exists str. simpl. split; [done|]. split; [lia|]. split; [done|].
    split; intros; lia.
  - rewrite toString_loop_S.
    destruct (Hrows i) as [row0 Hrow0]; [lia|]. rewrite Hrow0.
    pose proof (row_of_length s i row0 Hwf Hrow0) as Hlen0.
    set (W := Z.to_nat (width s)) in *.
    set (str' := str ++ row_chars row0 ++ ["010"%char]).
    assert (Hstr' : length str' = (length str + S W)%nat).
    { unfold str', row_chars.
      rewrite !length_app, length_fmap, Hlen0. simpl. lia. }
    destruct (IH (i + 1) s str' Hwf) as (out & Hout & Hlen & Hpre & Hbit & Hnl).
    { intros k Hk. apply Hrows. lia. }
    exists out. split; [done|]. split; [rewrite Hlen, Hstr'; lia|].
    split; [|split].
    + intros j Hj. rewrite Hpre by lia. unfold str'.
      by rewrite lookup_app_l.
    + intros d x row Hd Hrow Hx. destruct d as [|d].
      * replace (i + Z.of_nat 0) with i in Hrow by lia.
        assert (row = row0) as -> by congruence.
        rewrite Hpre by lia. unfold str'.
        rewrite lookup_app_r by lia.
        replace (length str + 0 * S W + x - length str)%nat with x by lia.
        rewrite lookup_app_l
          by (unfold row_chars; rewrite length_fmap; lia).
        unfold row_chars. apply list_lookup_fmap.
      * replace (length str + S d * S W + x)%nat
          with (length str' + d * S W + x)%nat by lia.
        apply Hbit; [lia| |done].
        by replace (i + 1 + Z.of_nat d) with (i + Z.of_nat (S d)) by lia.
    + intros d Hd. destruct d as [|d].
      * rewrite Hpre by lia. unfold str'.
        rewrite lookup_app_r by lia.
        replace (length str + 0 * S W + W - length str)%nat with W by lia.
        rewrite lookup_app_r
          by (unfold row_chars; rewrite length_fmap; lia).
        unfold row_chars. rewrite length_fmap, Hlen0.
        by rewrite Nat.sub_diag.
      * replace (length str + S d * S W + W)%nat
          with (length str' + d * S W + W)%nat by lia.
        apply Hnl. lia.
Qed.

Lemma reachable_rows s :
  reachable s →
  store_length s = height s
  ∧ ∀ k, 0 ≤ k < height s → is_Some (row_of s k).
Proof.
  intros Hreach. pose proof (reachable_wf s Hreach) as Hwf.
  destruct (reachable_store_rows s Hreach) as [[Hdom _] _].
  split.
  - apply store_length_height. intros n Hn. apply Hdom in Hn. lia.
  - intros k Hk. unfold row_of. destruct (cache s !! k); [eauto|].
    destruct (wf_store s Hwf k Hk) as [rlc ->]. simpl. eauto.
Qed.

Lemma reachable_positive s : reachable s → 0 < width s ∧ 0 < height s.
Proof.
  intros (o & s0 & cs & Hnew & <-).
  pose proof (RlcBitmap_wf o s0 Hnew) as Hwf.
  destruct (RlcBitmap_inr o s0 Hnew) as (Hw & Hh & Hw0 & Hh0 & _).
  destruct (run_calls_wf cs s0 Hwf) as [_ (Hw' & Hh' & _)].
  lia.
Qed.

(** X13.  On a bitmap used through [get], [set] and
    [flushChanges], [toString] returns a string of [height] lines of
    [width + 1] characters: the character at column [x] of line [y] is a
    dot when the bitmap holds 0 at [(x, y)] and an at sign otherwise, and
    every line ends with a line feed. *)
Theorem toString_picture (s : bitmap) :
  reachable s →
  ∃ out, toString s = inr out
    ∧ Z.of_nat (length out) = height s * (width s + 1)
    ∧ (∀ x y, 0 ≤ x < width s → 0 ≤ y < height s →
         out !! Z.to_nat (y * (width s + 1) + x) = bit_char <$> bit_of s x y)
    ∧ (∀ y, 0 ≤ y < height s →
         out !! Z.to_nat (y * (width s + 1) + width s) = Some "010"%char).
Proof.
  intros Hreach. pose proof (reachable_wf s Hreach) as Hwf.
  destruct (reachable_rows s Hreach) as [Hlen Hrows].
  destruct (reachable_positive s Hreach) as [Hw Hpos].
  unfold toString. rewrite Hlen.
  destruct (toString_loop_chars (Z.to_nat (height s)) 0 s [] Hwf)
    as (out & Hout & Hsize & _ & Hbit & Hnl).
  { intros k Hk. apply Hrows. lia. }
  exists out. split; [done|].
  split; [|split].
  - rewrite Hsize. simpl length. nia.
  - intros x y Hx Hy.
    destruct (Hrows y Hy) as [row Hrow].
    unfold bit_of. rewrite Hrow. simpl. unfold typed_get.
    rewrite decide_True by lia.
    rewrite <- (Hbit (Z.to_nat y) (Z.to_nat x) row); [|lia| |lia].
    + f_equal. simpl length. nia.
    + by replace (0 + Z.of_nat (Z.to_nat y)) with y by lia.
  - intros y Hy.
    rewrite <- (Hnl (Z.to_nat y)) by lia. f_equal. simpl length. nia.
Qed.

Lemma toString_picture_witness :
  ∃ out, toString (run_calls (blank_8x3 1) [CallSet 1 0 1]) = inr out
         ∧ out !! 1%nat = Some "@"%char
         ∧ out !! 8%nat = Some "010"%char.
Proof.
  assert (Hreach : reachable (run_calls (blank_8x3 1) [CallSet 1 0 1])).
  { exists (Options 8 3 (Some 1)), (blank_8x3 1), [CallSet 1 0 1].
    split; [apply blank_8x3_1|reflexivity]. }
  destruct (toString_picture _ Hreach) as (out & Hout & _ & Hbit & Hnl).
  exists out. split; [exact Hout|]. split.
  - apply (Hbit 1 0); split; (discriminate || reflexivity).
  - apply (Hnl 0); split; (discriminate || reflexivity).
Defined.

Lemma reachable_run_calls s cs : reachable s → reachable (run_calls s cs).
Proof.
  intros (o & s0 & cs0 & Hnew & <-).
  exists o, s0, (cs0 ++ cs). split; [done|].
  unfold run_calls. by rewrite foldl_app.
Qed.

Lemma run_calls_row_of_reads cs : ∀ s n,
  wf s → bit_rows s → forallb is_read cs = true →
  row_of (run_calls s cs) n = row_of s n.
Proof.
  induction cs as [|c cs IH]; intros s n Hwf Hbit Hcs; simpl; [done|].
  simpl in Hcs. apply andb_true_iff in Hcs as [Hc Hcs].
  assert (Hbc : bit_call c = true) by (by destruct c).
  rewrite IH; [|by apply run_call_wf|by apply run_call_bit_rows|done].
  destruct c as [x y|x y v|]; simpl; [|done|].
  - rewrite get_state. by apply getRow_row_of.
  - by apply flushChanges_row_of.
Qed.

(** X14.  On a bitmap written with bit values, calls of
    [get] and [flushChanges], with the fetching and evicting they cause,
    do not change what [toString] returns. *)
Theorem toString_unchanged_by_reads (s : bitmap) (cs : list call) :
  bit_reachable s → forallb is_read cs = true →
  toString (run_calls s cs) = toString s.
Proof.
  intros Hbreach Hcs.
  pose proof (bit_reachable_reachable s Hbreach) as Hreach.
  pose proof (reachable_wf s Hreach) as Hwf.
  pose proof (bit_reachable_bit_rows s Hbreach) as Hbit.
  destruct (reachable_rows s Hreach) as [Hlen _].
  destruct (reachable_rows _ (reachable_run_calls s cs Hreach)) as [Hlen' _].
  destruct (run_calls_wf cs s Hwf) as [_ (_ & Hh & _)].
  unfold toString. rewrite Hlen, Hlen', Hh.
  apply toString_loop_rows. intros n. by apply run_calls_row_of_reads.
Qed.

Lemma toString_unchanged_by_reads_witness :
  toString (run_calls (run_calls (blank_8x3 1) [CallSet 1 0 1])
              [CallGet 0 1; CallFlush; CallGet 0 2])
  = toString (run_calls (blank_8x3 1) [CallSet 1 0 1]).
Proof.
  apply (toString_unchanged_by_reads
           (run_calls (blank_8x3 1) [CallSet 1 0 1])
           [CallGet 0 1; CallFlush; CallGet 0 2]
           (blank_8x3_1_reachable [CallSet 1 0 1] eq_refl)).
  reflexivity.
Defined.

(** ** The invariants of the bitmap *)

(** X15.  On every bitmap used through [get], [set] and
    [flushChanges]: the store holds the rows [0] to [height - 1] and no
    other; the queue lists the cached rows, each once; every cached row is
    a row of the store and has [width] elements; and a cached row that is
    not marked modified is what the stored counts decode to. *)
Theorem bitmap_invariants (s : bitmap) :
  reachable s →
  (∀ n, is_Some (store s !! n) ↔ 0 ≤ n < height s)
  ∧ NoDup (cacheRows s)
  ∧ (∀ n, n ∈ cacheRows s ↔ is_Some (cache s !! n))
  ∧ (∀ n e, cache s !! n = Some e →
       0 ≤ n < height s
       ∧ length (data e) = Z.to_nat (width s)
       ∧ (modified e = false →
          rlcDecode (width s) <$> store s !! n = Some (data e))).
Proof.
  intros Hreach. pose proof (reachable_wf s Hreach) as Hwf.
  destruct (reachable_store_rows s Hreach) as [[Hdom Hcached] _].
  split; [|split; [|split]].
  - intros n. split; [apply Hdom | apply (wf_store s Hwf)].
  - apply (wf_nodup s Hwf).
  - apply (wf_rows s Hwf).
  - intros n e He. split; [apply Hdom; by eapply Hcached|].
    split; [by apply (wf_length s Hwf n) | by apply (wf_clean s Hwf n)].
Qed.

Lemma bitmap_invariants_witness :
  NoDup (cacheRows (run_calls (blank_8x3 2)
                      [CallSet 0 0 1; CallGet 0 1; CallGet 0 2])).
Proof.
  apply (bitmap_invariants (run_calls (blank_8x3 2)
                              [CallSet 0 0 1; CallGet 0 1; CallGet 0 2])).
  exists (Options 8 3 (Some 2)), (blank_8x3 2),
    [CallSet 0 0 1; CallGet 0 1; CallGet 0 2].
  split; [apply blank_8x3_2|reflexivity].
Defined.

(** ** The bitmap as a plain array of bits *)

Lemma set_valid_bit_of x y v s :
  wf s → bit_rows s → (1 <= cacheMaxItems s)%Q →
  0 ≤ x < width s → 0 ≤ y < height s → is_bit v →
  bit_of (set x y v s).2 x y = Some v.
Proof.
  intros Hwf Hbit Hroom Hx Hy Hv.
  destruct (getRow_ok y s Hwf Hy Hroom) as [row Hrow].
  destruct (set x y v s) as [[err|[]] s1] eqn:Hset.
  - destruct (set_cases x y v s Hwf)
      as [(err' & Herr & _)|(e & _ & _ & _ & Hok)]; [|congruence].
    rewrite Herr in Hrow. discriminate.
  - destruct (set_row_of_eq x y v s s1 Hwf Hbit Hset) as (row' & Hrow' & Hrow1).
    pose proof (row_of_length s y row' Hwf Hrow') as Hlen.
    simpl. unfold bit_of. rewrite Hrow1. simpl.
    apply typed_get_set; [lia|lia|done].
Qed.

Lemma run_calls_plain cs : ∀ s (f : Z → Z → Z),
  wf s → bit_rows s → (1 <= cacheMaxItems s)%Q →
  forallb bit_call cs = true →
  (∀ x y, 0 ≤ x < width s → 0 ≤ y < height s → bit_of s x y = Some (f x y)) →
  ∀ x y, 0 ≤ x < width s → 0 ≤ y < height s →
         bit_of (run_calls s cs) x y
         = Some (foldl (plain_call (width s) (height s)) f cs x y).
Proof.
  induction cs as [|c cs IH]; intros s f Hwf Hbit Hroom Hcs Hf x y Hx Hy;
    [by apply Hf|].
  simpl in Hcs. apply andb_true_iff in Hcs as [Hc Hcs].
  destruct (run_call_shape s c Hwf) as (Hw & Hh & Hm & _).
  cbn [run_calls foldl]. fold (run_calls (run_call s c) cs).
  rewrite <- Hw, <- Hh.
  apply IH; [by apply run_call_wf|by apply run_call_bit_rows
            |by rewrite Hm|done| |lia|lia].
  rewrite Hw, Hh. intros x' y' Hx' Hy'.
  destruct c as [x0 y0|x0 y0 v|]; cbn [plain_call].
  - rewrite run_call_bit_of by done. by apply Hf.
  - simpl in Hc. apply bool_decide_eq_true in Hc.
    destruct (decide (0 ≤ x0 < width s ∧ 0 ≤ y0 < height s)) as [[Hx0 Hy0]|Hout].
    + destruct (decide (x' = x0 ∧ y' = y0)) as [[-> ->]|Hne].
      * by apply set_valid_bit_of.
      * rewrite run_call_bit_of; [by apply Hf|done|done|].
        simpl. apply bool_decide_eq_false. intros [-> ->]. by apply Hne.
    + rewrite run_call_bit_of; [by apply Hf|done|done|].
      simpl. apply bool_decide_eq_false. intros [-> ->]. apply Hout. lia.
  - rewrite run_call_bit_of by done. by apply Hf.
Qed.

(** X16.  Make a bitmap whose cache can hold a row, and call
    [get], [set] with bit values and [flushChanges] in any order and at any
    coordinates.  Then at every column below [width] of every row below
    [height] the bitmap holds, and [get] returns, the bit of a plain array
    that starts all zeros and on which each [set] inside the bounds assigns
    its bit: caching, eviction, flushing and the calls that throw make no
    difference. *)
Theorem behaves_as_plain_array (o : options) (s0 : bitmap) (cs : list call)
    (x y : Z) :
  RlcBitmap o = inr s0 → (1 <= cacheMaxItems s0)%Q →
  forallb bit_call cs = true →
  0 ≤ x < width s0 → 0 ≤ y < height s0 →
  bit_of (run_calls s0 cs) x y
  = Some (plain_calls (width s0) (height s0) cs x y)
  ∧ (get x y (run_calls s0 cs)).1
    = inr (Some (plain_calls (width s0) (height s0) cs x y)).
Proof.
  intros Hnew Hroom Hcs Hx Hy.
  pose proof (RlcBitmap_wf o s0 Hnew) as Hwf0.
  destruct (RlcBitmap_inr o s0 Hnew) as (_&_&_&_&_&_& Hc & _).
  pose proof (bit_rows_empty s0 Hc) as Hbit0.
  assert (Hbits : bit_of (run_calls s0 cs) x y
                  = Some (plain_calls (width s0) (height s0) cs x y)).
  { apply run_calls_plain; try done.
    intros x' y' Hx' Hy'. unfold bit_of, row_of.
    rewrite Hc, lookup_empty, (RlcBitmap_store o s0 Hnew).
    rewrite decide_True by done. simpl.
    rewrite rlc_round_trip;
      [|lia|apply Forall_replicate; by left|apply length_replicate].
    unfold typed_get, BitArray. rewrite decide_True by lia.
    apply lookup_replicate_2. lia. }
  split; [done|].
  destruct (run_calls_wf cs s0 Hwf0) as [Hwf (Hw & Hh & Hm & _)].
  pose proof (run_calls_bit_rows cs s0 Hwf0 Hbit0 Hcs) as Hbit.
  destruct (getRow_ok y (run_calls s0 cs) Hwf) as [row Hrow];
    [lia|by rewrite Hm|].
  assert (Hv : (get x y (run_calls s0 cs)).1 = inr (typed_get row x)).
  { unfold get. destruct (getRow y (run_calls s0 cs)) as [[err|row'] s1];
      simpl in *; congruence. }
  rewrite Hv. f_equal. rewrite <- Hbits. by apply get_inr.
Qed.

Lemma behaves_as_plain_array_witness :
  (get 1 0 (run_calls (blank_8x3 1)
              [CallSet 1 0 1; CallSet 1 1 1; CallSet 9 0 1; CallGet 0 2;
               CallSet 1 1 0; CallFlush])).1
  = inr (Some 1).
Proof.
  apply (behaves_as_plain_array (Options 8 3 (Some 1)) (blank_8x3 1)
           [CallSet 1 0 1; CallSet 1 1 1; CallSet 9 0 1; CallGet 0 2;
            CallSet 1 1 0; CallFlush] 1 0 blank_8x3_1).
  - discriminate.
  - reflexivity.
  - split; [discriminate|reflexivity].
  - split; [discriminate|reflexivity].
Defined.
